(** * CSP2PC: the asset extractor, the parameter mapper and the graph patcher

    A shallow embedding of [csp2procreate.py].  Python numbers are modelled
    by exact rationals ([Q]): integers are exact anyway, and a float is
    read as the rational it denotes, so that the branch structure and the
    formulas of the source can be stated and evaluated.  The float power
    [x ** y] is a parameter.  Exceptions are an explicit error result,
    dictionaries are finite maps, the list [$objects] is a list updated by
    index, and the one loop that need not end, the reference resolver, runs
    on fuel. *)

From Stdlib Require Import ZArith QArith Qminmax Lqa Lia List.
From Stdlib Require Import Strings.String Strings.Byte.
From stdpp Require Import base option list gmap strings.
From stdpp Require Import sorting.

Import ListNotations.

(** ** Python values and exceptions *)

Module Py.

Inductive exn : Type :=
| TypeError
| IndexError
| ZeroDivisionError
| RuntimeError (msg : string).

Inductive res (A : Type) : Type :=
| Ok (a : A)
| Raise (e : exn).
Arguments Ok {A} a.
Arguments Raise {A} e.

Definition bind {A B} (m : res A) (k : A -> res B) : res B :=
  match m with
  | Ok a => k a
  | Raise e => Raise e
  end.

(** A scalar as [sqlite3] hands it out of a row, or as a Python expression
    over such scalars produces it. *)
Inductive value : Type :=
| VNone
| VBool (b : bool)
| VInt (z : Z)
| VReal (q : Q).

(** [bool(x)] *)
Definition truthy (x : value) : bool :=
  match x with
  | VNone => false
  | VBool b => b
  | VInt z => negb (z =? 0)%Z
  | VReal q => negb (Qeq_bool q 0)
  end.

(** [x or d] *)
Definition or_ (x d : value) : value := if truthy x then x else d.

(** the number a non-None scalar stands for in arithmetic *)
Definition num (x : value) : res Q :=
  match x with
  | VNone => Raise TypeError
  | VBool b => Ok (if b then 1 else 0)%Q
  | VInt z => Ok (inject_Z z)
  | VReal q => Ok q
  end.

(** [float(x)] *)
Definition float (x : value) : res Q := num x.

(** [variant.get(k, d)] and [variant.get(k)] *)
Definition get (variant : gmap string value) (k : string) (d : value) : value :=
  default d (variant !! k).
Definition get_ (variant : gmap string value) (k : string) : value :=
  get variant k VNone.

End Py.

Export Py.

#[export] Instance res_bind : MBind res := fun A B k m => Py.bind m k.
#[export] Instance res_ret : MRet res := fun A a => Ok a.

(** Comparisons and true division of scalars; [None] is a [TypeError]. *)
Definition Qltb (x y : Q) : bool := negb (Qle_bool y x).

Definition le_ (a b : value) : res bool :=
  x ← num a; y ← num b; Ok (Qle_bool x y).
Definition lt_ (a b : value) : res bool :=
  x ← num a; y ← num b; Ok (Qltb x y).
Definition div_ (a b : value) : res Q :=
  x ← num a; y ← num b;
  if Qeq_bool y 0 then Raise ZeroDivisionError else Ok (x / y)%Q.

(** [min(a, b)] and [max(a, b)] on scalars: the first argument wins a tie. *)
Definition min_ (a b : value) : res value :=
  c ← lt_ b a; Ok (if c : bool then b else a).
Definition max_ (a b : value) : res value :=
  c ← lt_ a b; Ok (if c : bool then b else a).

(** [a == b] on scalars: [None] equals only [None]. *)
Definition eq_ (a b : value) : bool :=
  match num a, num b with
  | Ok x, Ok y => Qeq_bool x y
  | Raise _, Raise _ => true
  | _, _ => false
  end.

(** ** Stage 1: PNG extraction helpers *)

Abbreviation bytes := (list byte).

(** [b"IEND"] and [b"PNG"] *)
Definition IEND_MARKER : bytes := [x49; x45; x4e; x44].
Definition PNG_TOKEN : bytes := [x50; x4e; x47].

(** does [sub] occur at the head of [l]? *)
Fixpoint starts_with (sub l : bytes) : bool :=
  match sub, l with
  | [], _ => true
  | _ :: _, [] => false
  | a :: sub', b :: l' => Byte.eqb a b && starts_with sub' l'
  end.

(** [blob.rfind(sub)]: the highest offset at which [sub] occurs, or -1.
    The scan walks the offsets upwards from [i] and keeps the latest hit. *)
Fixpoint rfind_from (sub l : bytes) (i acc : Z) : Z :=
  let acc' := if starts_with sub l then i else acc in
  match l with
  | [] => acc'
  | _ :: l' => rfind_from sub l' (i + 1) acc'
  end.

Definition rfind (blob sub : bytes) : Z := rfind_from sub blob 0 (-1).

(** [blob[b:e]] with Python's clipping of the two bounds *)
Definition clip_index (len i : Z) : Z :=
  if (i <? 0)%Z then Z.max 0 (len + i) else Z.min len i.

Definition slice (blob : bytes) (b e : Z) : bytes :=
  let len := Z.of_nat (length blob) in
  let b' := clip_index len b in
  let e' := clip_index len e in
  take (Z.to_nat (e' - b')) (drop (Z.to_nat b') blob).

Definition _extract_png_from_layer (blob : bytes) : res bytes :=
  let pos_png := rfind blob PNG_TOKEN in
  if (pos_png <=? 0)%Z then
    Raise (RuntimeError "PNG signature not found in layer blob")
  else
    let begin := (pos_png - 1)%Z in
    let pos_iend := rfind blob IEND_MARKER in
    if (pos_iend =? -1)%Z then
      Raise (RuntimeError "IEND marker not found in layer blob")
    else
      let end_ := (pos_iend + 4)%Z in
      Ok (slice blob begin end_).

(** What the row loop of [extract_pngs_from_sut] leaves behind: the stamp
    files written, as (index in the file name, content), in the order of
    [paths], and the rows reported as skipped, as (row id, exception). *)
Record extraction : Type := mk_extraction {
  paths : list (nat * bytes);
  warnings : list (Z * exn)
}.

Fixpoint extract_rows (idx : nat) (rows : list (Z * bytes)) (acc : extraction)
  : extraction :=
  match rows with
  | [] => acc
  | (_id, blob) :: rows' =>
      match _extract_png_from_layer blob with
      | Ok png_bytes =>
          extract_rows (S idx) rows'
            (mk_extraction (paths acc ++ [(idx, png_bytes)]) (warnings acc))
      | Raise exc =>
          extract_rows (S idx) rows'
            (mk_extraction (paths acc) (warnings acc ++ [(_id, exc)]))
      end
  end.

(** [rows] is the answer of the query on [MaterialFile]. *)
Definition extract_pngs_from_sut (rows : list (Z * bytes)) : res extraction :=
  match rows with
  | [] => Raise (RuntimeError "No FileData rows found — brush has no embedded images?")
  | _ => Ok (extract_rows 0 rows (mk_extraction [] []))
  end.

(** ** Stage 2: the parameter mapper *)

Abbreviation variant_row := (gmap string value).

Definition csp_to_plotSpacing (variant : variant_row) : res Q :=
  let size_px := or_ (get variant "BrushSize" (VInt 1)) (VInt 1) in
  let interval_px := or_ (get variant "BrushInterval" (VInt 0)) (VInt 0) in
  nonpos ← le_ size_px (VInt 0);
  if nonpos : bool then Ok 0.01%Q
  else
    raw_spacing ← div_ interval_px size_px;
    (* larger brushes can have higher spacing multipliers *)
    fudge_factor ← (small ← lt_ size_px (VInt 50);
                    if small : bool then Ok 0.15%Q
                    else
                      medium ← lt_ size_px (VInt 100);
                      Ok (if medium : bool then 0.3%Q else 0.6%Q));
    let adjusted_spacing := (raw_spacing * fudge_factor)%Q in
    Ok (Qmax 0.01 (Qmin 1.0 adjusted_spacing)).

Record rendering_flags : Type := mk_render_flags {
  renderingMaxTransfer : bool;
  renderingModulatedTransfer : bool;
  renderingRecursiveMixing : bool
}.

(** the three reads at the head of [map_csp_rendering_flags] *)
Definition rf_mix_color (variant : variant_row) : res Q :=
  float (or_ (get variant "BrushMixColor" (VReal 0.0)) (VInt 0)).
Definition rf_mix_alpha (variant : variant_row) : res Q :=
  float (or_ (get variant "BrushMixAlpha" (VReal 0.0)) (VInt 0)).
Definition rf_brush_flow (variant : variant_row) : res Q :=
  float (or_ (get variant "BrushFlow" (VReal 1.0)) (VReal 1.0)).

Definition map_csp_rendering_flags (variant : variant_row) : res rendering_flags :=
  let use_watercolor := truthy (get variant "BrushUseWaterColor" (VInt 0)) in
  mix_color ← rf_mix_color variant;
  mix_alpha ← rf_mix_alpha variant;
  brush_flow ← rf_brush_flow variant;
  (* Light Glaze *)
  let flags := mk_render_flags true false false in
  if use_watercolor || Qltb 0.05 mix_color || Qltb 0.05 mix_alpha then
    let flags := mk_render_flags (renderingMaxTransfer flags)
                                 (renderingModulatedTransfer flags) true in
    if Qle_bool 0.75 mix_color || Qle_bool 0.75 mix_alpha then
      (* Intense Glaze *)
      Ok (mk_render_flags true true (renderingRecursiveMixing flags))
    else if Qltb 0.8 brush_flow then
      (* Heavy Glaze *)
      Ok (mk_render_flags true false (renderingRecursiveMixing flags))
    else
      (* Uniform Blending *)
      Ok (mk_render_flags false true (renderingRecursiveMixing flags))
  else Ok flags.

Record wet_mix : Type := mk_wet_mix {
  wetMixDilution : Q;
  wetMixCharge : Q;
  wetMixAttack : Q;
  wetMixPull : Q
}.

(** the reads and the normalisation at the head of [map_csp_to_wet_mix] *)
Definition wm_mix_col (variant : variant_row) : res Q :=
  float (or_ (get variant "BrushMixColor" (VInt 0)) (VInt 0)).
Definition wm_mix_alpha (variant : variant_row) : res Q :=
  float (or_ (get variant "BrushMixAlpha" (VInt 0)) (VInt 0)).
Definition wm_flow (variant : variant_row) : res Q :=
  float (or_ (get variant "BrushFlow" (VInt 100)) (VInt 100)).

(** [max(0.0, min(1.0, x/100.0))]; like Python's, [Qmin] and [Qmax] hand
    back their first argument unless the second is strictly smaller,
    respectively larger *)
Definition norm100 (x : Q) : Q := Qmax 0.0 (Qmin 1.0 (x / 100.0)).

Section WetMix.

(** Python's float power [x ** y], which the source takes from the
    language runtime. *)
Variable fpow : Q -> Q -> Q.

Definition map_csp_to_wet_mix (variant : variant_row) : res wet_mix :=
  let use_wc := truthy (get variant "BrushUseWaterColor" (VInt 0)) in
  mix_col ← wm_mix_col variant;
  mix_alpha ← wm_mix_alpha variant;
  flow ← wm_flow variant;
  let nc := norm100 mix_col in
  let na := norm100 mix_alpha in
  let nf := norm100 flow in
  let dilution :=
    if negb use_wc && Qltb nc 0.5 then 0.0%Q
    else
      let gamma := 0.75%Q in
      let cap := 0.7%Q in
      let base := fpow nc gamma in
      let flow_brake := (0.5 + 0.5 * (1.0 - nf))%Q in
      let alpha_push := (0.2 * na)%Q in
      Qmin cap (base * cap * flow_brake + alpha_push * cap) in
  let charge := Qmax 0.2 (1.0 - dilution) in
  let attack := (1.0 - 0.5 * na)%Q in
  let pull := if use_wc then 0.6%Q else 0.0%Q in
  Ok (mk_wet_mix dilution charge attack pull).

End WetMix.

(** ** Stage 2, continued: the property-graph patcher *)

(** A key of a plist dictionary: a [str] or a [bytes] object. *)
Inductive key : Type :=
| KStr (s : string)
| KBytes (s : string).

#[export] Instance key_eq_dec : EqDecision key.
Proof. solve_decision. Defined.

#[export] Instance key_countable : Countable key.
Proof.
  refine (inj_countable'
            (fun k => match k with KStr s => inl s | KBytes s => inr s end)
            (fun x => match x with inl s => KStr s | inr s => KBytes s end) _).
  intros []; reflexivity.
Defined.

(** What a record field or a non-record slot of [$objects] holds: a scalar
    or an indirect reference [UID(n)]; [PNone] is the [None] that a failed
    [.get] evaluates to. *)
Inductive pval : Type :=
| PNone
| PUID (n : nat)
| PBool (b : bool)
| PInt (z : Z)
| PReal (q : Q)
| PStr (s : string).

Abbreviation record := (gmap key pval).

Inductive slot : Type :=
| SDict (d : record)
| SVal (v : pval).

Definition ptruthy (x : pval) : bool :=
  match x with
  | PNone => false
  | PUID _ => true
  | PBool b => b
  | PInt z => negb (z =? 0)%Z
  | PReal q => negb (Qeq_bool q 0)
  | PStr s => negb (String.eqb s "")
  end.

(** [k in obj] and [obj.get(k)] *)
Definition has (obj : record) (k : key) : bool := bool_decide (is_Some (obj !! k)).
Definition pget (obj : record) (k : key) : pval := default PNone (obj !! k).

(** [resolve]: follow UID indirection until the real object is reached.
    [fuel] bounds the number of turns of the [while] loop: [None] means the
    loop is still running when the fuel is spent.  The result carries the
    slot number the object was found in, when it was reached through a
    reference, since the caller mutates that object in place. *)
Fixpoint resolve_from (objs : list slot) (fuel : nat) (loc : option nat) (val : slot)
  {struct fuel} : option (res (option nat * slot)) :=
  match val with
  | SVal (PUID n) =>
      match fuel with
      | 0 => None
      | S fuel' =>
          match objs !! n with
          | None => Some (Raise IndexError)
          | Some val' => resolve_from objs fuel' (Some n) val'
          end
      end
  | _ => Some (Ok (loc, val))
  end.

Definition resolve (objs : list slot) (fuel : nat) (val : pval)
  : option (res (option nat * slot)) :=
  resolve_from objs fuel None (SVal val).

(** the slot number that [objs[x] = ...] writes to *)
Definition index_ (len : nat) (x : pval) : res nat :=
  let of_int (z : Z) :=
    if (0 <=? z)%Z && (z <? Z.of_nat len)%Z then Ok (Z.to_nat z)
    else if (z <? 0)%Z && (0 <=? Z.of_nat len + z)%Z then Ok (Z.to_nat (Z.of_nat len + z))
    else Raise IndexError in
  match x with
  | PUID n => if (n <? len)%nat then Ok n else Raise IndexError
  | PInt z => of_int z
  | PBool b => of_int (if b then 1 else 0)%Z
  | PNone | PReal _ | PStr _ => Raise TypeError
  end.

(** The locals that [finalise_seed_brush] computes from the variant row
    before it walks the graph (the ones the walk reads). *)
Record locals : Type := mk_locals {
  spacing : Q;
  min_px : Q;
  max_px : Q;
  opacity : Q;
  randomized : bool;
  BrushRotation : value;
  BrushPatternOrderType : value;
  BrushRotationRandomScale : Q;
  jitter_val : Q;
  BrushUseIn : value;
  BrushUseOut : value;
  BrushInLength : value;
  BrushOutLength : value;
  render_flags : rendering_flags;
  wetMix_flags : wet_mix;
  angle_sensitive : bool
}.

Section Patcher.

Variable fpow : Q -> Q -> Q.

Definition read_locals (variant : variant_row) : res locals :=
  spacing ← csp_to_plotSpacing variant;
  let min_px := 0.02%Q in
  let max_px := 3.0%Q in
  let opacity := 1.0%Q in
  let flow_val := get variant "BrushFlow" (VInt 1000) in
  flow_val ← (m ← min_ (VInt 1000) flow_val; max_ (VInt 0) m);
  let randomized := get_ variant "BrushRotationRandomInSpray" in
  let BrushUseSpray := get_ variant "BrushUseSpray" in
  let BrushRotationInSpray := get_ variant "BrushRotationInSpray" in
  let randomized :=
    negb (eq_ randomized (VInt 0)) && truthy BrushUseSpray
    && truthy BrushRotationInSpray in
  let BrushRotation := get_ variant "BrushRotation" in
  let BrushPatternOrderType := get variant "BrushPatternOrderType" (VInt 0) in
  BrushRotationRandomScale ←
    div_ (get variant "BrushRotationRandomScale" (VInt 0)) (VInt 100);
  jitter_val ← (r ← div_ (get_ variant "BrushRevision") (VInt 100); Ok (r * 2)%Q);
  let BrushUseIn := get_ variant "BrushUseIn" in
  let BrushUseOut := get_ variant "BrushUseOut" in
  let BrushInLength := get_ variant "BrushInLength" in
  let BrushOutLength := get_ variant "BrushOutLength" in
  render_flags ← map_csp_rendering_flags variant;
  wetMix_flags ← map_csp_to_wet_mix fpow variant;
  let angle_sensitive := eq_ (get_ variant "BrushRotationEffector") (VInt 3) in
  Ok (mk_locals spacing min_px max_px opacity randomized BrushRotation
        BrushPatternOrderType BrushRotationRandomScale jitter_val
        BrushUseIn BrushUseOut BrushInLength BrushOutLength
        render_flags wetMix_flags angle_sensitive).

End Patcher.

(** [if k in obj: obj[k] = v] *)
Definition set_if_in (k : string) (v : pval) (obj : record) : record :=
  if has obj (KStr k) then <[KStr k := v]> obj else obj.

(** the same when computing the value may raise *)
Definition set_if_in_res (k : string) (v : res pval) (obj : record) : res record :=
  if has obj (KStr k) then x ← v; Ok (<[KStr k := x]> obj) else Ok obj.

(** Steps (c) to (o) of the walk on one record. *)
Definition patch_fields (L : locals) (obj : record) : res record :=
  (* (c) spacing, (d) minSize, (e) maxSize, (f) opacity *)
  let obj := set_if_in "plotSpacing" (PReal (spacing L)) obj in
  let obj := set_if_in "minSize" (PReal (min_px L)) obj in
  let obj := set_if_in "maxSize" (PReal (max_px L)) obj in
  let obj := set_if_in "maxOpacity" (PReal (opacity L)) obj in
  (* (g) rotation *)
  obj ← set_if_in_res "shapeRotation" (q ← float (BrushRotation L); Ok (PReal q)) obj;
  (* (h) randomized *)
  let obj := set_if_in "shapeRandomise" (PBool (randomized L)) obj in
  (* (i) scatter *)
  let obj :=
    if has obj (KStr "shapeRandomise") then
      if eq_ (BrushPatternOrderType L) (VInt 3) then
        <[KStr "shapeScatter" := PReal (BrushRotationRandomScale L)]> obj
      else <[KStr "shapeScatter" := PReal 0]> obj
    else obj in
  (* (j) FlipX *)
  let obj :=
    if has obj (KStr "shapeFlipXJitter") && eq_ (BrushPatternOrderType L) (VInt 3) then
      <[KStr "shapeFlipXJitter" := PBool true]> obj
    else if has obj (KStr "shapeFlipXJitter")
            && negb (eq_ (BrushPatternOrderType L) (VInt 3)) then
      <[KStr "shapeFlipXJitter" := PBool false]> obj
    else obj in
  (* (k) jitter *)
  let obj := set_if_in "plotJitter" (PReal (jitter_val L)) obj in
  (* (l) taper *)
  let obj := set_if_in "taperPressure" (PReal 0) obj in
  obj ←
    (if truthy (or_ (BrushUseIn L) (BrushUseOut L)) then
       obj ← set_if_in_res "pencilTaperStartLength"
               (r ← div_ (BrushInLength L) (VInt 100); Ok (PReal (r / 4))) obj;
       set_if_in_res "pencilTaperEndLength"
         (r ← div_ (BrushOutLength L) (VInt 100); Ok (PReal (r / 2))) obj
     else Ok obj);
  (* (m) render mode *)
  let obj := set_if_in "renderingMaxTransfer"
               (PBool (renderingMaxTransfer (render_flags L))) obj in
  let obj := set_if_in "renderingModulatedTransfer"
               (PBool (renderingModulatedTransfer (render_flags L))) obj in
  let obj := set_if_in "renderingRecursiveMixing"
               (PBool (renderingRecursiveMixing (render_flags L))) obj in
  (* (n) wet-mix *)
  let obj := set_if_in "dynamicsMix" (PReal (wetMixDilution (wetMix_flags L))) obj in
  let obj := set_if_in "dynamicsLoad" (PReal (wetMixCharge (wetMix_flags L))) obj in
  let obj := set_if_in "dynamicsPressureMix" (PReal (wetMixAttack (wetMix_flags L))) obj in
  let obj := set_if_in "dynamicsWetAccumulation"
               (PReal (wetMixPull (wetMix_flags L))) obj in
  (* (o) shape input-style for angle sensitivity *)
  let obj :=
    if angle_sensitive L then
      let obj := set_if_in "shapeAzimuth" (PBool true) obj in
      let obj := set_if_in "shapeRoll" (PBool true) obj in
      let obj := set_if_in "shapeRollMode" (PInt 1) obj in
      set_if_in "shapeOrientation" (PInt 1) obj
    else obj in
  Ok obj.

(** The walk of [finalise_seed_brush] over [$objects].  [obj] is the record
    taken from slot [i]; it stays the object stored in that slot unless step
    (b) overwrites the slot, so its final content is written back only while
    it is still attached. *)
Section Walk.

Variable fuel : nat.
Variable L : locals.
Variable now : Q.
Variable new_name : string.

(** (a) creationDate -> NS.time *)
Definition stamp_step (i : nat) (obj : record) (objs : list slot) (stamped : bool)
  : option (res (record * list slot * bool)) :=
  if negb stamped
     && (has obj (KStr "creationDate") || has obj (KBytes "creationDate")) then
    let val :=
      if ptruthy (pget obj (KStr "creationDate")) then pget obj (KStr "creationDate")
      else pget obj (KBytes "creationDate") in
    match resolve objs fuel val with
    | None => None
    | Some (Raise e) => Some (Raise e)
    | Some (Ok (Some j, SDict cd)) =>
        if has cd (KStr "NS.time") || has cd (KBytes "NS.time") then
          let key := if has cd (KStr "NS.time") then KStr "NS.time"
                     else KBytes "NS.time" in
          let cd := <[key := PReal now]> cd in
          if decide (j = i) then Some (Ok (cd, objs, true))
          else Some (Ok (obj, <[j := SDict cd]> objs, true))
        else Some (Ok (obj, objs, stamped))
    | Some (Ok _) => Some (Ok (obj, objs, stamped))
    end
  else Some (Ok (obj, objs, stamped)).

(** (b) visible name; the last component tells whether [obj] is still the
    object of slot [i] afterwards *)
Definition rename_step (i : nat) (obj : record) (objs : list slot) (renamed : bool)
  : res (list slot * bool * bool) :=
  if negb renamed && (has obj (KStr "name") || has obj (KBytes "name")) then
    j ← index_ (length objs) (pget obj (KStr "name"));
    Ok (<[j := SVal (PStr new_name)]> objs, true, bool_decide (j ≠ i))
  else Ok (objs, renamed, true).

(** one turn of the [for] loop on a record slot *)
Definition patch_slot (i : nat) (obj : record) (objs : list slot)
  (stamped renamed : bool) : option (res (list slot * bool * bool)) :=
  match stamp_step i obj objs stamped with
  | None => None
  | Some (Raise e) => Some (Raise e)
  | Some (Ok (obj, objs, stamped)) =>
      Some ('(objs, renamed, attached) ← rename_step i obj objs renamed;
            obj ← patch_fields L obj;
            Ok (if attached : bool then <[i := SDict obj]> objs else objs,
                stamped, renamed))
  end.

(** the [for] loop from slot [i] on, [todo] slots left *)
Fixpoint walk (todo i : nat) (objs : list slot) (stamped renamed : bool)
  : option (res (list slot)) :=
  match todo with
  | 0 => Some (Ok objs)
  | S todo' =>
      match objs !! i with
      | Some (SDict obj) =>
          match patch_slot i obj objs stamped renamed with
          | None => None
          | Some (Raise e) => Some (Raise e)
          | Some (Ok (objs, stamped, renamed)) =>
              if stamped && renamed then Some (Ok objs)
              else walk todo' (S i) objs stamped renamed
          end
      | _ => walk todo' (S i) objs stamped renamed
      end
  end.

End Walk.

(** [finalise_seed_brush] on the loaded [$objects] list; the result is the
    list that is dumped back. *)
Definition finalise_seed_brush (fpow : Q -> Q -> Q) (fuel : nat)
  (objs : list slot) (new_name : string) (now : Q) (variant : variant_row)
  : option (res (list slot)) :=
  match read_locals fpow variant with
  | Raise e => Some (Raise e)
  | Ok L => walk fuel L now new_name (length objs) 0 objs false false
  end.

(** [objs[i][k]] for a record slot, for reading results *)
Definition field (objs : list slot) (i : nat) (k : string) : option pval :=
  match objs !! i with
  | Some (SDict d) => d !! KStr k
  | _ => None
  end.

(** ** Stage 1, continued: the container scanner *)

(** [b"SQLite format 3"] *)
Definition SQLITE_MAGIC : bytes :=
  [x53; x51; x4c; x69; x74; x65; x20; x66; x6f; x72; x6d; x61; x74; x20; x33].

(** [blob.find(sub)]: the lowest offset at which [sub] occurs, or -1 *)
Fixpoint find_from (sub l : bytes) (i : Z) : Z :=
  if starts_with sub l then i
  else match l with
       | [] => (-1)%Z
       | _ :: l' => find_from sub l' (i + 1)
       end.

Definition find (blob sub : bytes) : Z := find_from sub blob 0.

(** the outcome of the scanner, which raises [ValueError] *)
Inductive scanned (A : Type) : Type :=
| Scanned (a : A)
| ValueError (msg : string).
Arguments Scanned {A} a.
Arguments ValueError {A} msg.

Definition locate_sqlite_offset (data : bytes) : scanned Z :=
  let off := find data SQLITE_MAGIC in
  if (off =? -1)%Z then ValueError "SQLite header not found — is this a .sut file?"
  else Scanned off.

(** the content [dump_sqlite_blob] writes to the temporary file: [raw[off:]],
    that is [raw[off:len(raw)]] *)
Definition dump_sqlite_blob (raw : bytes) : scanned bytes :=
  match locate_sqlite_offset raw with
  | Scanned off => Scanned (slice raw off (Z.of_nat (length raw)))
  | ValueError msg => ValueError msg
  end.

(** ** Stage 2, continued: reading the variant row *)

(** [dict(pairs)]: a later pair overrides an earlier one with the same key *)
Definition dict_of (pairs : list (string * value)) : variant_row :=
  foldl (fun m kv => <[fst kv := snd kv]> m) ∅ pairs.

(** [read_variant_row] on the answers of its two queries: [row] is what
    [fetchone] returns, [None] for an empty table, and [names] the column
    names of [table_info]. *)
Definition read_variant_row (names : list string) (row : option (list value))
  : res variant_row :=
  match row with
  | None => Raise TypeError
  | Some row => Ok (dict_of (zip names row))
  end.

(** the first statement of [finalise_seed_brush] after loading the graph is
    [variant = read_variant_row(sql_tmp)]; this is the function on the
    answers of the two queries instead of a variant row *)
Definition finalise_from_store (fpow : Q -> Q -> Q) (fuel : nat) (objs : list slot)
  (new_name : string) (now : Q) (names : list string) (row : option (list value))
  : option (res (list slot)) :=
  match read_variant_row names row with
  | Raise e => Some (Raise e)
  | Ok variant => finalise_seed_brush fpow fuel objs new_name now variant
  end.

(** ** The head of [main]: extraction and the guard on its result *)

Inductive top (A : Type) : Type :=
| Returned (a : A)
| Raised (e : exn)
| SystemExit (msg : string).
Arguments Returned {A} a.
Arguments Raised {A} e.
Arguments SystemExit {A} msg.

Definition main_stamps (rows : list (Z * bytes)) : top (list (nat * bytes)) :=
  match extract_pngs_from_sut rows with
  | Raise e => Raised e
  | Ok e =>
      match paths e with
      | [] => SystemExit "No PNG stamps found in the .sut"
      | pngs => Returned pngs
      end
  end.

(** ** Auxiliary notions *)

(** [sub] occurs in [blob] at offset [p] *)
Definition occurs_at (sub blob : bytes) (p : nat) : Prop :=
  exists pre post, blob = pre ++ sub ++ post /\ length pre = p.

Definition last_occurrence (sub blob : bytes) (p : nat) : Prop :=
  occurs_at sub blob p /\ forall q, occurs_at sub blob q -> (q <= p)%nat.

(** the step function of [csp_to_plotSpacing] on the number of [size_px] *)
Definition fudge_for (s : Q) : Q :=
  if Qltb s 50 then 0.15%Q else if Qltb s 100 then 0.3%Q else 0.6%Q.

(** the decision of [map_csp_rendering_flags] on the four values it reads *)
Definition rendering_mode (use_watercolor : bool) (mix_color mix_alpha brush_flow : Q)
  : rendering_flags :=
  if use_watercolor || Qltb 0.05 mix_color || Qltb 0.05 mix_alpha then
    if Qle_bool 0.75 mix_color || Qle_bool 0.75 mix_alpha then mk_render_flags true true true
    else if Qltb 0.8 brush_flow then mk_render_flags true false true
    else mk_render_flags false true true
  else mk_render_flags true false false.





(** [path objs val ns s]: following the references from [val] through the
    slot table visits the slots [ns], in this order, and arrives at [s]. *)
Inductive path (objs : list slot) : slot -> list nat -> slot -> Prop :=
| path_here (val : slot) : path objs val [] val
| path_hop (n : nat) (val' : slot) (ns : list nat) (s : slot) :
    objs !! n = Some val' -> path objs val' ns s ->
    path objs (SVal (PUID n)) (n :: ns) s.

(** [runs objs val k]: started on [val], the loop of [resolve] leaves after
    exactly [k] index lookups in [objs] (the last one failing, for a
    reference out of range). *)
Inductive runs (objs : list slot) : slot -> nat -> Prop :=
| runs_stop (val : slot) :
    (forall n, val <> SVal (PUID n)) -> runs objs val 0
| runs_dangling (n : nat) :
    objs !! n = None -> runs objs (SVal (PUID n)) 1
| runs_step (n : nat) (val' : slot) (k : nat) :
    objs !! n = Some val' -> runs objs val' k -> runs objs (SVal (PUID n)) (S k).

(** A rational stand-in for [x ** 0.75] on non-negative [x]: square roots by
    Newton's iteration, [x ** 0.75 = sqrt (x * sqrt x)]. *)
Fixpoint newton_sqrt (n : nat) (x y : Q) : Q :=
  match n with
  | O => y
  | S n' => newton_sqrt n' x ((y + x / y) / 2)
  end.

Definition approx_sqrt (x : Q) : Q :=
  if Qle_bool x 0 then 0%Q else newton_sqrt 4 x 1.

Definition approx_pow34 (x : Q) : Q := approx_sqrt (x * approx_sqrt x).

(** One conditional assignment of the walk over a record,
    [if on and g in obj: obj[k] = v]; [Put] when the value is at hand, [Try]
    when computing it may raise. *)
Inductive action : Type :=
| Put (on : bool) (g k : string) (v : pval)
| Try (on : bool) (g k : string) (v : res pval).

Definition a_on (a : action) : bool :=
  match a with Put on _ _ _ | Try on _ _ _ => on end.
Definition a_guard (a : action) : string :=
  match a with Put _ g _ _ | Try _ g _ _ => g end.
Definition a_key (a : action) : string :=
  match a with Put _ _ k _ | Try _ _ k _ => k end.
Definition a_val (a : action) : res pval :=
  match a with Put _ _ _ v => Ok v | Try _ _ _ v => v end.

Definition put (on : bool) (g k : string) (v : pval) (obj : record) : record :=
  if on && has obj (KStr g) then <[KStr k := v]> obj else obj.

Definition try_ (on : bool) (g k : string) (v : res pval) (obj : record) : res record :=
  if on && has obj (KStr g) then x ← v; Ok (<[KStr k := x]> obj) else Ok obj.

Definition step (a : action) (obj : record) : res record :=
  match a with
  | Put on g k v => Ok (put on g k v obj)
  | Try on g k v => try_ on g k v obj
  end.

(** does the assignment take place on [obj]? *)
Definition fires (a : action) (obj : record) : bool :=
  a_on a && has obj (KStr (a_guard a)).

Fixpoint run (acts : list action) (obj : record) : res record :=
  match acts with
  | [] => Ok obj
  | a :: acts' => obj ← step a obj; run acts' obj
  end.

(** steps (c) to (o) of the walk as a table of such assignments *)
Definition actions (L : locals) : list action :=
  let three := eq_ (BrushPatternOrderType L) (VInt 3) in
  let taper := truthy (or_ (BrushUseIn L) (BrushUseOut L)) in
  let angle := angle_sensitive L in
  [ Put true "plotSpacing" "plotSpacing" (PReal (spacing L));
    Put true "minSize" "minSize" (PReal (min_px L));
    Put true "maxSize" "maxSize" (PReal (max_px L));
    Put true "maxOpacity" "maxOpacity" (PReal (opacity L));
    Try true "shapeRotation" "shapeRotation" (q ← float (BrushRotation L); Ok (PReal q));
    Put true "shapeRandomise" "shapeRandomise" (PBool (randomized L));
    Put true "shapeRandomise" "shapeScatter"
      (PReal (if three then BrushRotationRandomScale L else 0));
    Put true "shapeFlipXJitter" "shapeFlipXJitter" (PBool three);
    Put true "plotJitter" "plotJitter" (PReal (jitter_val L));
    Put true "taperPressure" "taperPressure" (PReal 0);
    Try taper "pencilTaperStartLength" "pencilTaperStartLength"
      (r ← div_ (BrushInLength L) (VInt 100); Ok (PReal (r / 4)));
    Try taper "pencilTaperEndLength" "pencilTaperEndLength"
      (r ← div_ (BrushOutLength L) (VInt 100); Ok (PReal (r / 2)));
    Put true "renderingMaxTransfer" "renderingMaxTransfer"
      (PBool (renderingMaxTransfer (render_flags L)));
    Put true "renderingModulatedTransfer" "renderingModulatedTransfer"
      (PBool (renderingModulatedTransfer (render_flags L)));
    Put true "renderingRecursiveMixing" "renderingRecursiveMixing"
      (PBool (renderingRecursiveMixing (render_flags L)));
    Put true "dynamicsMix" "dynamicsMix" (PReal (wetMixDilution (wetMix_flags L)));
    Put true "dynamicsLoad" "dynamicsLoad" (PReal (wetMixCharge (wetMix_flags L)));
    Put true "dynamicsPressureMix" "dynamicsPressureMix"
      (PReal (wetMixAttack (wetMix_flags L)));
    Put true "dynamicsWetAccumulation" "dynamicsWetAccumulation"
      (PReal (wetMixPull (wetMix_flags L)));
    Put angle "shapeAzimuth" "shapeAzimuth" (PBool true);
    Put angle "shapeRoll" "shapeRoll" (PBool true);
    Put angle "shapeRollMode" "shapeRollMode" (PInt 1);
    Put angle "shapeOrientation" "shapeOrientation" (PInt 1) ].

(** the field names that steps (c) to (o) may assign *)
Definition patched_fields : list string :=
  [ "plotSpacing"; "minSize"; "maxSize"; "maxOpacity"; "shapeRotation";
    "shapeRandomise"; "shapeScatter"; "shapeFlipXJitter"; "plotJitter";
    "taperPressure"; "pencilTaperStartLength"; "pencilTaperEndLength";
    "renderingMaxTransfer"; "renderingModulatedTransfer";
    "renderingRecursiveMixing"; "dynamicsMix"; "dynamicsLoad";
    "dynamicsPressureMix"; "dynamicsWetAccumulation"; "shapeAzimuth";
    "shapeRoll"; "shapeRollMode"; "shapeOrientation" ].

(** the fields that are assigned whenever they are present, with the value
    each one gets *)
Definition field_table (L : locals) : list (string * pval) :=
  [ ("plotSpacing", PReal (spacing L));
    ("minSize", PReal (min_px L));
    ("maxSize", PReal (max_px L));
    ("maxOpacity", PReal (opacity L));
    ("shapeRandomise", PBool (randomized L));
    ("shapeFlipXJitter", PBool (eq_ (BrushPatternOrderType L) (VInt 3)));
    ("plotJitter", PReal (jitter_val L));
    ("taperPressure", PReal 0);
    ("renderingMaxTransfer", PBool (renderingMaxTransfer (render_flags L)));
    ("renderingModulatedTransfer", PBool (renderingModulatedTransfer (render_flags L)));
    ("renderingRecursiveMixing", PBool (renderingRecursiveMixing (render_flags L)));
    ("dynamicsMix", PReal (wetMixDilution (wetMix_flags L)));
    ("dynamicsLoad", PReal (wetMixCharge (wetMix_flags L)));
    ("dynamicsPressureMix", PReal (wetMixAttack (wetMix_flags L)));
    ("dynamicsWetAccumulation", PReal (wetMixPull (wetMix_flags L))) ].

(** the record carries none of the four keys of the claim-once steps *)
Definition no_claim_once (obj : record) : Prop :=
  has obj (KStr "creationDate") = false /\ has obj (KBytes "creationDate") = false
  /\ has obj (KStr "name") = false /\ has obj (KBytes "name") = false.

(** the lowest offset at which [sub] occurs in [blob] *)
Definition first_occurrence (sub blob : bytes) (p : nat) : Prop :=
  occurs_at sub blob p /\ forall q, occurs_at sub blob q -> (p <= q)%nat.

(** ** Concrete inputs used below *)

(** a container: nine bytes of prefix, the store header, two more bytes *)
Definition raw_container : bytes :=
  [x43; x53; x46; x43; x48; x55; x4e; x4b; x00] ++ SQLITE_MAGIC ++ [x00; x10].

(** a blob whose only [IEND] lies before its only [PNG] *)
Definition blob_end_first : bytes := IEND_MARKER ++ [x00] ++ PNG_TOKEN.

(** a blob with some prefix, a tagged payload and a trailer *)
Definition blob_framed : bytes :=
  [x00; x89] ++ PNG_TOKEN ++ [x0d; x0a] ++ IEND_MARKER ++ [xae; x42; x60; x82; x00].

(** three rows: a malformed blob, a well-formed one, one without markers *)
Definition rows_mixed : list (Z * bytes) :=
  [(11%Z, [x00]); (12%Z, blob_framed); (13%Z, [])].

(** brush size 0 with a positive interval *)
Definition v_size0 : variant_row :=
  {[ "BrushSize" := VInt 0; "BrushInterval" := VInt 4 ]}.

(** a negative brush size *)
Definition v_size_neg : variant_row :=
  {[ "BrushSize" := VInt (-5); "BrushInterval" := VInt 4 ]}.

(** the variant row of the end-to-end scenario *)
Definition v_plain : variant_row :=
  {[ "BrushSize" := VInt 40; "BrushInterval" := VInt 4; "BrushFlow" := VInt 900;
     "BrushMixColor" := VInt 0; "BrushMixAlpha" := VInt 0;
     "BrushUseWaterColor" := VInt 0 ]}.

(** a row without [BrushFlow], its mix colour above the dilution threshold *)
Definition v_no_flow : variant_row :=
  {[ "BrushSize" := VInt 40; "BrushMixColor" := VInt 60 ]}.



(** two slots that refer to each other, and a chain of three references *)
Definition g_cycle : list slot := [SVal (PUID 1); SVal (PUID 0)].
Definition g_chain : list slot :=
  [SVal (PUID 2); SDict {[ KStr "NS.time" := PReal 0 ]}; SVal (PUID 1)].

(** the row of the end-to-end scenario completed with the two fields that
    the patcher divides or converts without a fallback *)
Definition v_complete : variant_row :=
  <["BrushRevision" := VInt 0]> (<["BrushRotation" := VInt 0]> v_plain).

(** the same without [BrushRotation] *)
Definition v_no_rotation : variant_row := <["BrushRevision" := VInt 0]> v_plain.

(** the same with the in-taper switched on and no [BrushInLength] *)
Definition v_no_in_length : variant_row := <["BrushUseIn" := VInt 1]> v_complete.

(** A template whose first record carries the name, the creation date and a
    spacing, followed by the name string, the date record and a second
    record with a spacing. *)
Definition g_two_spacings : list slot :=
  [ SDict {[ KStr "name" := PUID 1; KStr "creationDate" := PUID 2;
             KStr "plotSpacing" := PReal 0.5 ]};
    SVal (PStr "Seed");
    SDict {[ KStr "NS.time" := PReal 0 ]};
    SDict {[ KStr "plotSpacing" := PReal 0.5 ]} ].

(** the locals of the end-to-end scenario, and a record with a spacing, a
    randomise flag, a name and a key the walk does not know *)
Definition L_plain : locals :=
  mk_locals 0.015 0.02 3.0 1.0 false (VInt 0) (VInt 0) 0 0 VNone VNone VNone VNone
    (mk_render_flags true false false) (mk_wet_mix 0.0 1.0 1.0 0.0) false.

Definition rec_sample : record :=
  {[ KStr "plotSpacing" := PReal 0.5; KStr "shapeRandomise" := PBool true;
     KStr "name" := PUID 1; KBytes "plotSpacing" := PInt 7 ]}.

Definition rec_sample_patched : record :=
  <[KStr "shapeScatter" := PReal 0]>
    (<[KStr "shapeRandomise" := PBool false]>
       (<[KStr "plotSpacing" := PReal 0.015]> rec_sample)).

(** a template without name and creation date: a string and two records *)
Definition g_plain : list slot :=
  [ SVal (PStr "$null");
    SDict {[ KStr "plotSpacing" := PReal 0.5; KStr "shapeRandomise" := PBool true ]};
    SDict {[ KStr "plotSpacing" := PReal 0.9 ]} ].

(** what the patcher returns on the template with two spacings *)
Definition out_two_spacings : list slot :=
  match finalise_seed_brush (fun x _ => approx_pow34 x) 4 g_two_spacings "Stamp 1" 17
          v_complete with
  | Some (Ok out) => out
  | _ => []
  end.

(** one-record templates with a rotation field and with a taper field *)
Definition g_rotation : list slot := [ SDict {[ KStr "shapeRotation" := PReal 0 ]} ].
Definition g_taper : list slot := [ SDict {[ KStr "pencilTaperStartLength" := PReal 0 ]} ].

(** * Properties *)

(** ** The end-to-end scenario of the specification, evaluated *)

Example scenario_spacing :
  exists q, csp_to_plotSpacing v_plain = Ok q /\ (q == 0.015)%Q.
Proof. eexists. split; [vm_compute; reflexivity | reflexivity]. Qed.

Example scenario_flags :
  map_csp_rendering_flags v_plain = Ok (mk_render_flags true false false).
Proof. reflexivity. Qed.

Example scenario_dilution (fpow : Q -> Q -> Q) :
  exists w, map_csp_to_wet_mix fpow v_plain = Ok w /\ wetMixDilution w = 0.0%Q.
Proof. eexists. split; [vm_compute; reflexivity | reflexivity]. Qed.

Example scenario_chain :
  resolve g_chain 3 (PUID 0)
  = Some (Ok (Some 1%nat, SDict {[ KStr "NS.time" := PReal 0 ]})).
Proof. vm_compute. reflexivity. Qed.

Example scenario_chain_short : resolve g_chain 2 (PUID 0) = None.
Proof. reflexivity. Qed.

(** ** The extractor *)

Lemma starts_with_spec (sub l : bytes) :
  starts_with sub l = true <-> exists post, l = sub ++ post.
Proof.
  revert l. induction sub as [|a sub IH]; intros l; simpl.
  - split; [intros _; by exists l | done].
  - destruct l as [|b l].
    + split; [done | intros [post H]; discriminate].
    + rewrite andb_true_iff, IH. split.
      * intros [Hab [post ->]].
        apply Byte.byte_dec_bl in Hab. subst. by exists post.
      * intros [post H]. injection H as -> ->. split; [|by exists post].
        by apply Byte.byte_dec_lb.
Qed.

Lemma occurs_at_drop (sub blob : bytes) (p : nat) :
  occurs_at sub blob p <->
  (p <= length blob)%nat /\ starts_with sub (drop p blob) = true.
Proof.
  rewrite starts_with_spec. split.
  - intros (pre & post & -> & <-). split.
    + rewrite length_app. lia.
    + exists post. by rewrite drop_app_length.
  - intros [Hp [post Hpost]]. exists (take p blob), post. split.
    + by rewrite <- Hpost, take_drop.
    + rewrite length_take. lia.
Qed.

Lemma rfind_from_spec (sub l : bytes) (i acc : Z) :
  (rfind_from sub l i acc = acc /\
   forall k, (k <= length l)%nat -> starts_with sub (drop k l) = false)
  \/ (exists k, (k <= length l)%nat
        /\ rfind_from sub l i acc = (i + Z.of_nat k)%Z
        /\ starts_with sub (drop k l) = true
        /\ forall k', (k < k' <= length l)%nat ->
                      starts_with sub (drop k' l) = false).
Proof.
  revert i acc. induction l as [|b l IH]; intros i acc.
  - cbn [rfind_from]. destruct (starts_with sub []) eqn:E.
    + right. exists 0%nat. cbn [length drop]. rewrite E.
      repeat split; [lia | lia | intros; lia].
    + left. split; [done|]. intros k Hk. by rewrite drop_nil.
  - cbn [rfind_from].
    destruct (IH (i + 1)%Z (if starts_with sub (b :: l) then i else acc))
      as [[Hr Hno] | (k & Hk & Hr & Hat & Hlast)].
    + destruct (starts_with sub (b :: l)) eqn:E.
      * right. exists 0%nat. cbn [length drop]. rewrite E, Hr.
        repeat split; [lia | lia |].
        intros [|k'] Hk'; [lia|]. cbn [drop]. apply Hno. lia.
      * left. split; [done|].
        intros [|k] Hk; [done|]. cbn [drop]. apply Hno. cbn [length] in Hk. lia.
    + right. exists (S k). cbn [length drop]. rewrite Hr.
      repeat split; [lia | lia | done |].
      intros [|k'] Hk'; [lia|]. cbn [drop]. apply Hlast. lia.
Qed.

Lemma rfind_last (sub blob : bytes) (p : nat) :
  last_occurrence sub blob p -> rfind blob sub = Z.of_nat p.
Proof.
  intros [Hocc Hmax]. unfold rfind.
  apply occurs_at_drop in Hocc as [Hp Hat].
  destruct (rfind_from_spec sub blob 0 (-1)) as [[_ Hno] | (k & Hk & -> & Hk1 & Hk2)].
  - rewrite Hno in Hat; [done | lia].
  - assert (k <= p)%nat by (apply Hmax, occurs_at_drop; done).
    destruct (decide (k = p)) as [->|]; [lia|].
    rewrite Hk2 in Hat; [done | lia].
Qed.

Lemma rfind_absent (sub blob : bytes) :
  (forall q, ~ occurs_at sub blob q) -> rfind blob sub = (-1)%Z.
Proof.
  intros Hno. unfold rfind.
  destruct (rfind_from_spec sub blob 0 (-1)) as [[-> _] | (k & Hk & _ & Hk1 & _)]; [done|].
  exfalso. apply (Hno k), occurs_at_drop. done.
Qed.

Lemma rfind_found (sub blob : bytes) :
  rfind blob sub <> (-1)%Z ->
  (0 <= rfind blob sub)%Z /\ last_occurrence sub blob (Z.to_nat (rfind blob sub)).
Proof.
  unfold rfind.
  destruct (rfind_from_spec sub blob 0 (-1)) as [[-> _] | (k & Hk & -> & Hk1 & Hk2)];
    [done|].
  intros _. split; [lia|]. replace (Z.to_nat (0 + Z.of_nat k)) with k by lia. split.
  - by apply occurs_at_drop.
  - intros q [Hq Hat]%occurs_at_drop.
    destruct (decide (q <= k)%nat); [done|]. rewrite Hk2 in Hat; [done | lia].
Qed.

(** slices between in-range, non-negative bounds *)
Lemma slice_in_range (blob : bytes) (b e : nat) :
  (b <= e <= length blob)%nat ->
  slice blob (Z.of_nat b) (Z.of_nat e) = take (e - b) (drop b blob).
Proof.
  intros H. unfold slice, clip_index.
  destruct (Z.ltb_spec (Z.of_nat b) 0); [lia|].
  destruct (Z.ltb_spec (Z.of_nat e) 0); [lia|].
  f_equal; [|f_equal]; lia.
Qed.

Lemma occurs_at_inside (sub pre mid post : bytes) (q : nat) :
  occurs_at sub mid q -> occurs_at sub (pre ++ mid ++ post) (length pre + q).
Proof.
  intros (pre' & post' & -> & <-).
  exists (pre ++ pre'), (post' ++ post). split.
  - by rewrite <- !app_assoc.
  - by rewrite length_app.
Qed.

Lemma occurs_at_restrict (sub pre mid post : bytes) (q : nat) :
  occurs_at sub (pre ++ mid ++ post) (length pre + q) ->
  (q + length sub <= length mid)%nat ->
  occurs_at sub mid q.
Proof.
  intros [_ Hat]%occurs_at_drop Hfit.
  apply occurs_at_drop. split; [lia|].
  apply starts_with_spec in Hat as [post0 Hpost0].
  rewrite drop_app_add', drop_app_le in Hpost0 by lia.
  apply starts_with_spec. exists (drop (length sub) (drop q mid)).
  rewrite <- (take_drop (length sub) (drop q mid)) at 1. f_equal.
  apply (f_equal (take (length sub))) in Hpost0.
  rewrite take_app_le in Hpost0 by (rewrite length_drop; lia).
  by rewrite take_app_length in Hpost0.
Qed.

Lemma extract_range (blob : bytes) (p i : nat) :
  last_occurrence PNG_TOKEN blob p -> (1 <= p)%nat ->
  last_occurrence IEND_MARKER blob i -> (p < i)%nat ->
  _extract_png_from_layer blob = Ok (take (i + 4 - (p - 1)) (drop (p - 1) blob))
  /\ (i + 4 <= length blob)%nat.
Proof.
  intros Hp Hp1 Hi Hpi.
  assert (i + 4 <= length blob)%nat as Hlen.
  { destruct Hi as [(pre & post & -> & <-) _]. rewrite !length_app. simpl. lia. }
  split; [|done]. unfold _extract_png_from_layer.
  rewrite (rfind_last _ _ _ Hp), (rfind_last _ _ _ Hi).
  destruct (Z.leb_spec (Z.of_nat p) 0); [lia|].
  destruct (Z.eqb_spec (Z.of_nat i) (-1)); [lia|].
  replace (Z.of_nat p - 1)%Z with (Z.of_nat (p - 1)) by lia.
  replace (Z.of_nat i + 4)%Z with (Z.of_nat (i + 4)) by lia.
  by rewrite slice_in_range by lia.
Qed.

Lemma last_occurrence_restrict (sub pre mid post : bytes) (q : nat) :
  last_occurrence sub (pre ++ mid ++ post) (length pre + q) ->
  (q + length sub <= length mid)%nat ->
  last_occurrence sub mid q.
Proof.
  intros [Hocc Hmax] Hfit. split.
  - by eapply occurs_at_restrict.
  - intros q' Hq'. apply (occurs_at_inside sub pre mid post) in Hq'.
    apply Hmax in Hq'. lia.
Qed.

(** C6: on a blob whose last [PNG] token sits at an offset [p >= 1] and
    whose last [IEND] marker sits at an offset [i > p], the extraction
    returns exactly the bytes from offset [p - 1] up to, not including,
    offset [i + 4]; the result is a function of the blob alone, and running
    the extraction again, on the blob or on the payload it returned, gives
    that same payload. *)
Theorem extract_png_well_formed (blob : bytes) (p i : nat) :
  last_occurrence PNG_TOKEN blob p -> (1 <= p)%nat ->
  last_occurrence IEND_MARKER blob i -> (p < i)%nat ->
  exists pre png post,
    blob = pre ++ png ++ post
    /\ length pre = (p - 1)%nat
    /\ length (pre ++ png) = (i + 4)%nat
    /\ _extract_png_from_layer blob = Ok png
    /\ (forall r, _extract_png_from_layer blob = r -> r = Ok png)
    /\ _extract_png_from_layer png = Ok png.
Proof.
  intros Hp Hp1 Hi Hpi.
  destruct (extract_range blob p i Hp Hp1 Hi Hpi) as [Hex Hlen].
  set (pre := take (p - 1) blob).
  set (png := take (i + 4 - (p - 1)) (drop (p - 1) blob)) in *.
  set (post := drop (i + 4 - (p - 1)) (drop (p - 1) blob)).
  assert (blob = pre ++ png ++ post) as Hblob.
  { unfold pre, png, post. by rewrite !take_drop. }
  assert (length pre = (p - 1)%nat) as Hpre.
  { unfold pre. rewrite length_take. lia. }
  assert (length png = (i + 4 - (p - 1))%nat) as Hpng.
  { unfold png. rewrite length_take, length_drop. lia. }
  exists pre, png, post. repeat split; try done.
  - rewrite length_app. lia.
  - by intros r <-.
  - assert (last_occurrence PNG_TOKEN png 1) as Hp'.
    { apply (last_occurrence_restrict _ pre png post).
      - rewrite <- Hblob, Hpre. by replace (p - 1 + 1)%nat with p by lia.
      - rewrite Hpng. simpl. lia. }
    assert (last_occurrence IEND_MARKER png (i - (p - 1))) as Hi'.
    { apply (last_occurrence_restrict _ pre png post).
      - rewrite <- Hblob, Hpre. by replace (p - 1 + (i - (p - 1)))%nat with i by lia.
      - rewrite Hpng. simpl. lia. }
    destruct (extract_range png 1 (i - (p - 1)) Hp' ltac:(lia) Hi' ltac:(lia))
      as [-> _].
    f_equal. cbn [drop Nat.sub].
    apply take_ge. rewrite Hpng. lia.
Qed.

Lemma last_occurrence_rfind (sub blob : bytes) (p : nat) :
  rfind blob sub = Z.of_nat p -> last_occurrence sub blob p.
Proof.
  intros H. destruct (rfind_found sub blob) as [_ Hlast]; [lia|].
  rewrite H in Hlast. by rewrite Nat2Z.id in Hlast.
Qed.

Lemma extract_png_well_formed_witness :
  exists pre png post,
    blob_framed = pre ++ png ++ post
    /\ length pre = (2 - 1)%nat
    /\ length (pre ++ png) = (7 + 4)%nat
    /\ _extract_png_from_layer blob_framed = Ok png
    /\ (forall r, _extract_png_from_layer blob_framed = r -> r = Ok png)
    /\ _extract_png_from_layer png = Ok png.
Proof.
  apply (extract_png_well_formed blob_framed 2 7).
  - apply last_occurrence_rfind. reflexivity.
  - lia.
  - apply last_occurrence_rfind. reflexivity.
  - lia.
Defined.

Lemma extract_without_start (blob : bytes) :
  (forall q, ~ occurs_at PNG_TOKEN blob q) ->
  _extract_png_from_layer blob
  = Raise (RuntimeError "PNG signature not found in layer blob").
Proof.
  intros H. unfold _extract_png_from_layer. by rewrite (rfind_absent _ _ H).
Qed.

Lemma extract_without_end (blob : bytes) (p : nat) :
  last_occurrence PNG_TOKEN blob p -> (1 <= p)%nat ->
  (forall q, ~ occurs_at IEND_MARKER blob q) ->
  _extract_png_from_layer blob
  = Raise (RuntimeError "IEND marker not found in layer blob").
Proof.
  intros Hp Hp1 H. unfold _extract_png_from_layer.
  rewrite (rfind_last _ _ _ Hp), (rfind_absent _ _ H).
  destruct (Z.leb_spec (Z.of_nat p) 0); [lia|]. done.
Qed.

(** neither test of the function looks at the order of the two markers *)
Lemma extract_markers_swapped (blob : bytes) (p i : nat) :
  last_occurrence PNG_TOKEN blob p -> last_occurrence IEND_MARKER blob i ->
  (i < p)%nat ->
  _extract_png_from_layer blob
  = Ok (slice blob (Z.of_nat p - 1) (Z.of_nat i + 4)).
Proof.
  intros Hp Hi Hlt. unfold _extract_png_from_layer.
  rewrite (rfind_last _ _ _ Hp), (rfind_last _ _ _ Hi).
  destruct (Z.leb_spec (Z.of_nat p) 0); [lia|].
  destruct (Z.eqb_spec (Z.of_nat i) (-1)); [lia | done].
Qed.

(** a row whose extraction raises is reported and the loop goes on *)
Lemma extract_rows_skip (idx : nat) (_id : Z) (blob : bytes) (exc : exn)
  (rows : list (Z * bytes)) (acc : extraction) :
  _extract_png_from_layer blob = Raise exc ->
  extract_rows idx ((_id, blob) :: rows) acc
  = extract_rows (S idx) rows
      (mk_extraction (paths acc) (warnings acc ++ [(_id, exc)])).
Proof. intros H. cbn [extract_rows]. by rewrite H. Qed.

(** every row ends up either as a stamp file or as a warning, and nothing
    is raised once there is a row *)
Lemma extract_rows_count (idx : nat) (rows : list (Z * bytes)) (acc : extraction) :
  (length (paths (extract_rows idx rows acc))
   + length (warnings (extract_rows idx rows acc))
   = length rows + (length (paths acc) + length (warnings acc)))%nat.
Proof.
  revert idx acc. induction rows as [|[_id blob] rows IH]; intros idx acc; [done|].
  cbn [extract_rows]. destruct (_extract_png_from_layer blob) as [png|exc];
    rewrite IH; cbn [paths warnings length]; rewrite length_app; simpl; lia.
Qed.

Lemma extract_pngs_from_sut_total (rows : list (Z * bytes)) :
  rows <> [] ->
  exists e, extract_pngs_from_sut rows = Ok e
            /\ (length (paths e) + length (warnings e) = length rows)%nat.
Proof.
  intros Hne. destruct rows as [|row rows]; [done|].
  eexists. split; [reflexivity|]. rewrite extract_rows_count. simpl. lia.
Qed.

(** C5, on the code: a blob whose last [IEND] (offset 0) lies before its
    last [PNG] (offset 5) does not make the extraction fail.  The function
    returns the empty payload, the row loop writes it out as stamp 0 and
    records no diagnostic for the row. *)
Theorem extract_end_before_start :
  last_occurrence IEND_MARKER blob_end_first 0
  /\ last_occurrence PNG_TOKEN blob_end_first 5
  /\ _extract_png_from_layer blob_end_first = Ok []
  /\ extract_pngs_from_sut [(7%Z, blob_end_first)]
     = Ok (mk_extraction [(0%nat, [])] []).
Proof.
  split; [|split; [|split]].
  - apply last_occurrence_rfind. reflexivity.
  - apply last_occurrence_rfind. reflexivity.
  - reflexivity.
  - reflexivity.
Qed.

(** ** Scalars *)

Ltac res_simpl := cbn [mbind res_bind Py.bind].

Lemma Qltb_lt (x y : Q) : Qltb x y = true <-> (x < y)%Q.
Proof.
  unfold Qltb. rewrite negb_true_iff, <- not_true_iff_false, Qle_bool_iff.
  split; [apply Qnot_le_lt | apply Qlt_not_le].
Qed.

Lemma Qltb_ge (x y : Q) : Qltb x y = false <-> (y <= x)%Q.
Proof.
  unfold Qltb. rewrite negb_false_iff. apply Qle_bool_iff.
Qed.

Lemma truthy_num (x : value) :
  truthy x = true -> exists q, num x = Ok q /\ ~ (q == 0)%Q.
Proof.
  destruct x as [|b|z|q]; simpl; intros H; try done.
  - subst. by exists 1%Q.
  - exists (inject_Z z). split; [done|]. apply negb_true_iff, Z.eqb_neq in H.
    unfold Qeq. simpl. lia.
  - exists q. split; [done|]. apply negb_true_iff in H.
    intros Hq. apply Qeq_bool_iff in Hq. congruence.
Qed.

Lemma falsy_num (x : value) (q : Q) :
  truthy x = false -> num x = Ok q -> (q == 0)%Q.
Proof.
  destruct x as [|b|z|q']; simpl; intros H Hn; try done.
  - subst. by injection Hn as <-.
  - injection Hn as <-. apply negb_false_iff, Z.eqb_eq in H. by subst.
  - injection Hn as <-. by apply negb_false_iff, Qeq_bool_iff in H.
Qed.

(** [x or d] is a number whenever the default is one: the number of [x] if
    [x] is a non-zero number, the default otherwise *)
Lemma or_num (x d : value) (qd : Q) :
  num d = Ok qd ->
  exists q, num (or_ x d) = Ok q
    /\ ((truthy x = true /\ num x = Ok q /\ ~ (q == 0)%Q)
        \/ (truthy x = false /\ q = qd)).
Proof.
  intros Hd. unfold or_. destruct (truthy x) eqn:E.
  - destruct (truthy_num x E) as (q & Hq & Hne). exists q. split; [done|]. by left.
  - exists qd. split; [done|]. by right.
Qed.

(** a numeric field, zero or not, reads as its number under [or 0] *)
Lemma or_zero_num (x : value) (q : Q) :
  num x = Ok q -> exists q', num (or_ x (VInt 0)) = Ok q' /\ (q' == q)%Q.
Proof.
  intros Hx. destruct (or_num x (VInt 0) 0%Q eq_refl) as (q' & Hq' & [(_ & H & _)|[Hf ->]]).
  - exists q'. split; [done|]. rewrite Hx in H. by injection H as ->.
  - exists 0%Q. split; [done|]. symmetry. by eapply falsy_num.
Qed.

(** ** Reading a field with a fallback *)




(** ** The spacing curve *)

Lemma csp_to_plotSpacing_shape (variant : variant_row) :
  exists s i,
    num (or_ (get variant "BrushSize" (VInt 1)) (VInt 1)) = Ok s
    /\ num (or_ (get variant "BrushInterval" (VInt 0)) (VInt 0)) = Ok i
    /\ ~ (s == 0)%Q
    /\ csp_to_plotSpacing variant
       = Ok (if Qle_bool s 0 then 0.01%Q
             else Qmax 0.01 (Qmin 1.0 (i / s * fudge_for s))).
Proof.
  destruct (or_num (get variant "BrushSize" (VInt 1)) (VInt 1) 1%Q eq_refl)
    as (s & Hs & Hs').
  destruct (or_num (get variant "BrushInterval" (VInt 0)) (VInt 0) 0%Q eq_refl)
    as (i & Hi & _).
  exists s, i. repeat split; try done.
  - destruct Hs' as [(_ & _ & H)|[_ ->]]; [done | by intros H].
  - assert (Qeq_bool s 0 = false) as Hz.
    { apply not_true_iff_false. rewrite Qeq_bool_iff.
      destruct Hs' as [(_ & _ & H)|[_ ->]]; [done | by intros H]. }
    unfold csp_to_plotSpacing, le_, lt_, div_, fudge_for.
    rewrite Hs, Hi. cbn [mbind res_bind Py.bind num].
    change (inject_Z 0) with 0%Q. change (inject_Z 50) with 50%Q.
    change (inject_Z 100) with 100%Q. rewrite Hz.
    destruct (Qle_bool s 0); [done|]. cbn [mbind res_bind Py.bind].
    destruct (Qltb s 50); [done|]. by destruct (Qltb s 100).
Qed.

Lemma get_some (variant : variant_row) (k : string) (x d : value) :
  variant !! k = Some x -> get variant k d = x.
Proof. intros H. unfold get. by rewrite H. Qed.

Lemma get_none (variant : variant_row) (k : string) (d : value) :
  variant !! k = None -> get variant k d = d.
Proof. intros H. unfold get. by rewrite H. Qed.

Lemma fudge_for_pos (s : Q) : (0 < fudge_for s)%Q.
Proof.
  unfold fudge_for. destruct (Qltb s 50); [done|]. by destruct (Qltb s 100).
Qed.

Lemma spacing_in_range (variant : variant_row) :
  exists q, csp_to_plotSpacing variant = Ok q /\ (0.01 <= q)%Q /\ (q <= 1.0)%Q.
Proof.
  destruct (csp_to_plotSpacing_shape variant) as (s & i & _ & _ & _ & ->).
  eexists. split; [done|]. destruct (Qle_bool s 0).
  - split; done.
  - split; [apply Q.le_max_l|]. apply Q.max_lub; [done | apply Q.le_min_l].
Qed.

(** C4, on the code: a brush size equal to 0 does not give 0.01, although
    the function has the guard [if size_px <= 0: return 0.01] for it.  The
    read [variant.get("BrushSize", 1) or 1] of the line before turns the 0
    into 1, the guard does not fire, and the curve gives
    (4 / 1) * 0.15 = 0.6. *)
Lemma spacing_size0_counterexample :
  v_size0 !! "BrushSize" = Some (VInt 0)
  /\ exists q, csp_to_plotSpacing v_size0 = Ok q /\ (q == 0.6)%Q /\ ~ (q == 0.01)%Q.
Proof.
  split; [reflexivity|]. eexists. split; [vm_compute; reflexivity|].
  split; [reflexivity | discriminate].
Qed.

(** What the code makes of a stored brush size that is not positive: below
    0 the guard of line 149 returns 0.01 without forming the ratio; at 0 the
    guard is not reached with the stored size, since line 146 has put 1 in
    its place, and the result is the interval times 0.15 clamped to
    [0.01, 1.0]. *)
Lemma spacing_nonpositive_size (variant : variant_row) (x : value) (s : Q) :
  variant !! "BrushSize" = Some x -> num x = Ok s -> (s <= 0)%Q ->
  exists i,
    num (or_ (get variant "BrushInterval" (VInt 0)) (VInt 0)) = Ok i
    /\ csp_to_plotSpacing variant
       = Ok (if Qltb s 0 then 0.01%Q else Qmax 0.01 (Qmin 1.0 (i / 1 * 0.15))).
Proof.
  intros Hx Hs Hle.
  destruct (csp_to_plotSpacing_shape variant) as (s' & i & Hs' & Hi & _ & ->).
  exists i. split; [done|]. f_equal.
  rewrite (get_some _ _ x _ Hx) in Hs'. unfold or_ in Hs'. destruct (truthy x) eqn:E.
  - rewrite Hs in Hs'. injection Hs' as <-.
    destruct (truthy_num x E) as (q & Hq & Hne). rewrite Hs in Hq. injection Hq as <-.
    assert (s < 0)%Q as Hlt.
    { apply Qle_lteq in Hle as [H|H]; [done | by destruct Hne]. }
    apply Qltb_lt in Hlt as ->. apply Qle_bool_iff in Hle as ->. done.
  - injection Hs' as <-. pose proof (falsy_num x s E Hs) as Hz.
    assert (Qltb s 0 = false) as -> by (apply Qltb_ge; rewrite Hz; apply Qle_refl).
    reflexivity.
Qed.

Lemma spacing_nonpositive_size_witness :
  exists i,
    num (or_ (get v_size_neg "BrushInterval" (VInt 0)) (VInt 0)) = Ok i
    /\ csp_to_plotSpacing v_size_neg
       = Ok (if Qltb (inject_Z (-5)) 0 then 0.01%Q
             else Qmax 0.01 (Qmin 1.0 (i / 1 * 0.15))).
Proof.
  apply (spacing_nonpositive_size v_size_neg (VInt (-5)) (inject_Z (-5))).
  - reflexivity.
  - reflexivity.
  - discriminate.
Defined.

Lemma get_insert_ne (variant : variant_row) (k k' : string) (x d : value) :
  k <> k' -> get (<[k := x]> variant) k' d = get variant k' d.
Proof. intros H. unfold get. by rewrite lookup_insert_ne. Qed.

Lemma get_insert_eq (variant : variant_row) (k : string) (x d : value) :
  get (<[k := x]> variant) k d = x.
Proof. unfold get. by rewrite lookup_insert_eq. Qed.

(** C9: with the rest of the variant row fixed, hence the brush size and its
    bucket, a larger interval never gives a smaller spacing; and whatever
    the row, the spacing lies in [0.01, 1.0]. *)
Theorem spacing_monotone_bounded (variant : variant_row) (x1 x2 : value) (i1 i2 : Q) :
  num x1 = Ok i1 -> num x2 = Ok i2 -> (i1 <= i2)%Q ->
  (exists q1 q2,
     csp_to_plotSpacing (<["BrushInterval" := x1]> variant) = Ok q1
     /\ csp_to_plotSpacing (<["BrushInterval" := x2]> variant) = Ok q2
     /\ (q1 <= q2)%Q)
  /\ (forall any : variant_row,
        exists q, csp_to_plotSpacing any = Ok q /\ (0.01 <= q)%Q /\ (q <= 1.0)%Q).
Proof.
  intros H1 H2 Hle. split; [|apply spacing_in_range].
  destruct (csp_to_plotSpacing_shape (<["BrushInterval" := x1]> variant))
    as (s & j1 & Hs1 & Hj1 & Hs & ->).
  destruct (csp_to_plotSpacing_shape (<["BrushInterval" := x2]> variant))
    as (s' & j2 & Hs2 & Hj2 & _ & ->).
  rewrite get_insert_ne in Hs1, Hs2 by done.
  rewrite Hs1 in Hs2. injection Hs2 as <-.
  rewrite get_insert_eq in Hj1, Hj2.
  destruct (or_zero_num x1 i1 H1) as (j1' & Hj1' & E1).
  destruct (or_zero_num x2 i2 H2) as (j2' & Hj2' & E2).
  rewrite Hj1 in Hj1'. injection Hj1' as <-.
  rewrite Hj2 in Hj2'. injection Hj2' as <-.
  do 2 eexists. split; [done|]. split; [done|].
  destruct (Qle_bool s 0) eqn:E; [apply Qle_refl|].
  assert (0 < s)%Q as Hpos.
  { apply Qnot_le_lt. intros H. apply Qle_bool_iff in H. congruence. }
  apply Q.max_le_compat_l, Q.min_le_compat_l.
  apply Qmult_le_compat_r; [|apply Qlt_le_weak, fudge_for_pos].
  apply Qmult_le_compat_r; [|apply Qlt_le_weak, Qinv_lt_0_compat, Hpos].
  by rewrite E1, E2.
Qed.

Lemma spacing_monotone_bounded_witness :
  (exists q1 q2,
     csp_to_plotSpacing (<["BrushInterval" := VInt 4]> v_plain) = Ok q1
     /\ csp_to_plotSpacing (<["BrushInterval" := VReal 7.5]> v_plain) = Ok q2
     /\ (q1 <= q2)%Q)
  /\ (forall any : variant_row,
        exists q, csp_to_plotSpacing any = Ok q /\ (0.01 <= q)%Q /\ (q <= 1.0)%Q).
Proof.
  apply (spacing_monotone_bounded v_plain (VInt 4) (VReal 7.5) (inject_Z 4) 7.5%Q).
  - reflexivity.
  - reflexivity.
  - discriminate.
Defined.

(** ** The rendering-mode classification *)

Lemma rf_reads (variant : variant_row) :
  exists mc ma fl,
    rf_mix_color variant = Ok mc /\ rf_mix_alpha variant = Ok ma
    /\ rf_brush_flow variant = Ok fl.
Proof.
  unfold rf_mix_color, rf_mix_alpha, rf_brush_flow, float.
  destruct (or_num (get variant "BrushMixColor" (VReal 0.0)) (VInt 0) 0%Q eq_refl)
    as (mc & -> & _).
  destruct (or_num (get variant "BrushMixAlpha" (VReal 0.0)) (VInt 0) 0%Q eq_refl)
    as (ma & -> & _).
  destruct (or_num (get variant "BrushFlow" (VReal 1.0)) (VReal 1.0) 1.0%Q eq_refl)
    as (fl & -> & _).
  by exists mc, ma, fl.
Qed.

Lemma map_csp_rendering_flags_shape (variant : variant_row) (mc ma fl : Q) :
  rf_mix_color variant = Ok mc -> rf_mix_alpha variant = Ok ma ->
  rf_brush_flow variant = Ok fl ->
  map_csp_rendering_flags variant
  = Ok (rendering_mode (truthy (get variant "BrushUseWaterColor" (VInt 0))) mc ma fl).
Proof.
  intros Hc Ha Hf. unfold map_csp_rendering_flags, rendering_mode.
  rewrite Hc, Ha, Hf. cbn [mbind res_bind Py.bind].
  cbn [renderingMaxTransfer renderingModulatedTransfer renderingRecursiveMixing].
  destruct (_ || _ || _); [|done].
  destruct (_ || _); [done|]. by destruct (Qltb 0.8 fl).
Qed.







(** ** The wet-mix curve *)

Lemma norm100_range (x : Q) : (0 <= norm100 x)%Q /\ (norm100 x <= 1)%Q.
Proof.
  unfold norm100. split.
  - apply Qle_trans with 0.0%Q; [done | apply Q.le_max_l].
  - apply Q.max_lub; [done|].
    apply Qle_trans with 1.0%Q; [apply Q.le_min_l | done].
Qed.

Lemma wm_reads (variant : variant_row) :
  exists mix_col mix_alpha flow,
    wm_mix_col variant = Ok mix_col /\ wm_mix_alpha variant = Ok mix_alpha
    /\ wm_flow variant = Ok flow.
Proof.
  unfold wm_mix_col, wm_mix_alpha, wm_flow, float.
  destruct (or_num (get variant "BrushMixColor" (VInt 0)) (VInt 0) 0%Q eq_refl)
    as (mc & -> & _).
  destruct (or_num (get variant "BrushMixAlpha" (VInt 0)) (VInt 0) 0%Q eq_refl)
    as (ma & -> & _).
  destruct (or_num (get variant "BrushFlow" (VInt 100)) (VInt 100) 100%Q eq_refl)
    as (fl & -> & _).
  by exists mc, ma, fl.
Qed.

(** what the two readers of [BrushFlow] make of a field that is there:
    a non-zero number is read as it is, a zero like an absent field *)
Lemma flow_reads_present (variant : variant_row) (x : value) (q : Q) :
  variant !! "BrushFlow" = Some x -> num x = Ok q ->
  (~ (q == 0)%Q -> rf_brush_flow variant = Ok q /\ wm_flow variant = Ok q)
  /\ ((q == 0)%Q -> rf_brush_flow variant = Ok 1.0%Q /\ wm_flow variant = Ok 100%Q).
Proof.
  intros Hx Hq. unfold rf_brush_flow, wm_flow, float, or_.
  rewrite !(get_some _ _ _ _ Hx). destruct (truthy x) eqn:E.
  - split; [by rewrite Hq|]. intros Hz. destruct (truthy_num x E) as (q' & Hq' & Hne).
    rewrite Hq in Hq'. injection Hq' as <-. by destruct Hne.
  - split; [|done]. intros Hne. destruct Hne. exact (falsy_num x q E Hq).
Qed.


Section WetMixProperties.

Variable fpow : Q -> Q -> Q.
Hypothesis fpow_nonneg : forall x y : Q, (0 <= x)%Q -> (0 <= fpow x y)%Q.


End WetMixProperties.

Lemma newton_sqrt_pos (n : nat) (x y : Q) :
  (0 <= x)%Q -> (0 < y)%Q -> (0 < newton_sqrt n x y)%Q.
Proof.
  revert y. induction n as [|n IH]; intros y Hx Hy; [done|].
  cbn [newton_sqrt]. apply IH; [done|].
  assert (0 <= x / y)%Q.
  { apply Qmult_le_0_compat; [done|]. by apply Qlt_le_weak, Qinv_lt_0_compat. }
  apply Qlt_shift_div_l; [done | lra].
Qed.

Lemma approx_pow34_nonneg (x y : Q) : (0 <= x)%Q -> (0 <= approx_pow34 x)%Q.
Proof.
  intros _. unfold approx_pow34, approx_sqrt at 1.
  destruct (Qle_bool (x * approx_sqrt x) 0) eqn:E; [done|].
  apply Qlt_le_weak, newton_sqrt_pos; [|done].
  apply Qlt_le_weak, Qnot_le_lt. intros H. apply Qle_bool_iff in H. congruence.
Qed.



(** ** The two readers of [BrushFlow] *)









(** ** The reference resolver *)

Lemma runs_deterministic (objs : list slot) (val : slot) (k k' : nat) :
  runs objs val k -> runs objs val k' -> k = k'.
Proof.
  intros H. revert k'. induction H as [val Hv|n Hn|n val' k Hn H IH]; intros k' H'.
  - inversion H'; subst; [done | by destruct (Hv n) | by destruct (Hv n)].
  - inversion H' as [val Hv|n' Hn'|n' val'' k'' Hn' H'']; subst;
      [by destruct (Hv n) | done | congruence].
  - inversion H' as [val Hv|n' Hn'|n' val'' k'' Hn' H'']; subst;
      [by destruct (Hv n) | congruence |].
    rewrite Hn in Hn'. injection Hn' as <-. f_equal. by apply IH.
Qed.

Lemma resolve_from_runs (objs : list slot) (fuel : nat) (loc : option nat)
  (val : slot) (r : res (option nat * slot)) :
  resolve_from objs fuel loc val = Some r ->
  exists k, (k <= fuel)%nat /\ runs objs val k.
Proof.
  revert loc val. induction fuel as [|fuel IH]; intros loc val H.
  - exists 0%nat. split; [done|]. apply runs_stop. intros n ->. discriminate.
  - destruct val as [d|v].
    { exists 0%nat. split; [lia|]. by apply runs_stop. }
    destruct v as [|n|b|z|q|s];
      try (exists 0%nat; split; [lia|]; by apply runs_stop).
    cbn [resolve_from] in H. destruct (objs !! n) as [val'|] eqn:E.
    + destruct (IH _ _ H) as (k & Hk & Hr). exists (S k). split; [lia|].
      by eapply runs_step.
    + exists 1%nat. split; [lia|]. by apply runs_dangling.
Qed.

Lemma runs_resolve_from (objs : list slot) (val : slot) (k : nat) :
  runs objs val k ->
  forall fuel fuel' loc, (k <= fuel)%nat -> (k <= fuel')%nat ->
    resolve_from objs fuel loc val = resolve_from objs fuel' loc val.
Proof.
  induction 1 as [val Hv|n Hn|n val' k Hn H IH]; intros fuel fuel' loc Hf Hf'.
  - destruct val as [d|v]; [by destruct fuel, fuel'|].
    destruct v; try by destruct fuel, fuel'. by destruct (Hv n).
  - destruct fuel as [|fuel], fuel' as [|fuel']; try lia.
    cbn [resolve_from]. by rewrite Hn.
  - destruct fuel as [|fuel], fuel' as [|fuel']; try lia.
    cbn [resolve_from]. rewrite Hn. apply IH; lia.
Qed.

(** the slots visited by a run that ends are pairwise distinct *)
Lemma runs_visits (objs : list slot) (val : slot) (k : nat) :
  runs objs val k ->
  exists visited : list nat,
    NoDup visited
    /\ (forall j, j ∈ visited ->
          (j < length objs)%nat
          /\ exists m, (m <= k)%nat /\ runs objs (SVal (PUID j)) m)
    /\ (k <= S (length visited))%nat.
Proof.
  induction 1 as [val Hv|n Hn|n val' k Hn H IH].
  - exists []. split; [constructor|]. split; [|lia]. intros j Hj. by inversion Hj.
  - exists []. split; [constructor|]. split; [|simpl; lia]. intros j Hj. by inversion Hj.
  - destruct IH as (visited & Hnd & Hin & Hk).
    exists (n :: visited). split; [|split].
    + constructor; [|done]. intros Hn'. destruct (Hin n Hn') as (_ & m & Hm & Hrun).
      pose proof (runs_deterministic _ _ _ _ Hrun (runs_step objs n val' k Hn H)). lia.
    + intros j [->|Hj]%elem_of_cons.
      * split; [by eapply lookup_lt_Some|]. exists (S k). split; [lia|].
        by eapply runs_step.
      * destruct (Hin j Hj) as (Hlt & m & Hm & Hrun). split; [done|].
        exists m. split; [lia | done].
    + simpl. lia.
Qed.

Lemma runs_bounded (objs : list slot) (val : slot) (k : nat) :
  runs objs val k -> (k <= S (length objs))%nat.
Proof.
  intros (visited & Hnd & Hin & Hk)%runs_visits.
  assert (length visited <= length (seq 0 (length objs)))%nat as Hle.
  { apply NoDup_incl_length; [by apply NoDup_ListNoDup|].
    intros j Hj. apply in_seq. apply list_elem_of_In in Hj.
    destruct (Hin j Hj) as [Hlt _]. lia. }
  rewrite length_seq in Hle. lia.
Qed.

Lemma resolve_from_result (objs : list slot) (fuel : nat) (loc : option nat)
  (val : slot) (r : res (option nat * slot)) :
  resolve_from objs fuel loc val = Some r ->
  r = Raise IndexError
  \/ exists loc' s,
       r = Ok (loc', s) /\ (forall n, s <> SVal (PUID n))
       /\ ((loc' = loc /\ s = val) \/ exists j, loc' = Some j /\ objs !! j = Some s).
Proof.
  revert loc val. induction fuel as [|fuel IH]; intros loc val H.
  - destruct val as [d|v]; [|destruct v]; try discriminate;
      injection H as <-; right; eexists _, _; (split; [done|]); split; try done;
      by left.
  - destruct val as [d|v]; [|destruct v as [|n|b|z|q|s]];
      try (injection H as <-; right; eexists _, _; (split; [done|]); split;
           [done | by left]).
    cbn [resolve_from] in H. destruct (objs !! n) as [val'|] eqn:E.
    + destruct (IH _ _ H) as [->|(loc' & s & -> & Hs & Hloc)]; [by left|].
      right. exists loc', s. split; [done|]. split; [done|]. right.
      destruct Hloc as [[-> ->]|Hj]; [by exists n | done].
    + injection H as <-. by left.
Qed.

(** C3, on the code: on two slots that refer to each other the loop of the
    resolver never ends, whatever the number of turns it is given; no error
    is raised. *)
Lemma resolve_cycle_counterexample :
  ~ exists fuel r, resolve g_cycle fuel (PUID 0) = Some r.
Proof.
  assert (forall fuel loc,
             resolve_from g_cycle fuel loc (SVal (PUID 0)) = None
             /\ resolve_from g_cycle fuel loc (SVal (PUID 1)) = None) as H.
  { induction fuel as [|fuel IH]; intros loc; [done|].
    cbn. split; apply IH. }
  intros (fuel & r & Hr). unfold resolve in Hr.
  destruct (H fuel None) as [H0 _]. congruence.
Qed.

Lemma resolve_within_slot_count (objs : list slot) (fuel : nat) (val : pval)
  (r : res (option nat * slot)) :
  resolve objs fuel val = Some r -> resolve objs (S (length objs)) val = Some r.
Proof.
  unfold resolve. intros H.
  destruct (resolve_from_runs _ _ _ _ _ H) as (k & Hk & Hrun).
  rewrite <- H. apply (runs_resolve_from _ _ _ Hrun); [|done].
  by eapply runs_bounded.
Qed.

(** *** The chain of references from a value *)

Lemma path_inv_hop (objs : list slot) (x : slot) (n : nat) (ns : list nat) (s : slot) :
  path objs x (n :: ns) s ->
  x = SVal (PUID n) /\ exists val', objs !! n = Some val' /\ path objs val' ns s.
Proof. inversion 1; subst. split; [done|]. by eexists. Qed.

Lemma path_split (objs : list slot) (a b : list nat) (val s : slot) :
  path objs val (a ++ b) s -> exists x, path objs val a x /\ path objs x b s.
Proof.
  revert val. induction a as [|n a IH]; intros val H.
  - exists val. split; [constructor | done].
  - apply path_inv_hop in H as (-> & val' & Hn & H).
    destruct (IH _ H) as (x & Ha & Hb). exists x. split; [|done].
    by eapply path_hop.
Qed.

(** two chains from one value: the shorter one is the beginning of the other *)
Lemma path_prefix (objs : list slot) (val : slot) (ns : list nat) (s : slot) :
  path objs val ns s ->
  forall ns' s', path objs val ns' s' -> (length ns <= length ns')%nat ->
    exists rest, ns' = ns ++ rest /\ path objs s rest s'.
Proof.
  induction 1 as [val|n val' ns s Hn H IH]; intros ns' s' H' Hlen.
  - by exists ns'.
  - destruct ns' as [|n' ns']; [simpl in Hlen; lia|].
    apply path_inv_hop in H' as ([= <-] & val'' & Hn' & H').
    rewrite Hn in Hn'. injection Hn' as <-.
    destruct (IH _ _ H') as (rest & -> & Hrest); [simpl in Hlen; lia|].
    by exists rest.
Qed.

(** no lookup succeeds from a value that is not a reference into the table *)
Lemma path_end_nil (objs : list slot) (s s' : slot) (rest : list nat) :
  (forall n, s = SVal (PUID n) -> objs !! n = None) ->
  path objs s rest s' -> rest = [].
Proof.
  intros He H. destruct rest as [|n rest]; [done|].
  apply path_inv_hop in H as (-> & val' & Hn & _).
  rewrite (He n eq_refl) in Hn. discriminate.
Qed.

(** a chain that comes to an end visits no slot twice *)
Lemma path_end_NoDup (objs : list slot) (val : slot) (ns : list nat) (s : slot) :
  path objs val ns s ->
  (forall n, s = SVal (PUID n) -> objs !! n = None) ->
  NoDup ns.
Proof.
  induction 1 as [val|n val' ns s Hn H IH]; intros He; [constructor|].
  apply NoDup_cons. split; [|by apply IH].
  intros (a & b & ->)%list_elem_of_split.
  destruct (path_split _ _ _ _ _ H) as (x & _ & Hb).
  apply path_inv_hop in Hb as (_ & val'' & Hn' & Hb).
  rewrite Hn in Hn'. injection Hn' as <-.
  destruct (path_prefix _ _ _ _ Hb _ _ H) as (rest & Heq & Hrest).
  { rewrite length_app. simpl. lia. }
  apply (path_end_nil _ _ _ _ He) in Hrest as ->.
  apply (f_equal length) in Heq. rewrite !length_app in Heq. simpl in Heq. lia.
Qed.

Lemma path_slots (objs : list slot) (val : slot) (ns : list nat) (s : slot) :
  path objs val ns s -> forall j, j ∈ ns -> (j < length objs)%nat.
Proof.
  induction 1 as [val|n val' ns s Hn H IH]; intros j Hj.
  - by apply elem_of_nil in Hj.
  - apply elem_of_cons in Hj as [->|Hj]; [by eapply lookup_lt_Some | by apply IH].
Qed.

Lemma path_NoDup_length (objs : list slot) (val : slot) (ns : list nat) (s : slot) :
  path objs val ns s -> NoDup ns -> (length ns <= length objs)%nat.
Proof.
  intros H Hnd.
  assert (length ns <= length (seq 0%nat (length objs)))%nat as Hle.
  { apply submseteq_length, NoDup_submseteq; [done|].
    intros j Hj. apply elem_of_seq. pose proof (path_slots _ _ _ _ H j Hj). lia. }
  by rewrite length_seq in Hle.
Qed.

(** the chain can always be followed for [k] lookups, unless it ends before *)
Lemma path_exists (objs : list slot) (k : nat) (val : slot) :
  exists ns s,
    path objs val ns s
    /\ (length ns = k \/ (forall n, s = SVal (PUID n) -> objs !! n = None)).
Proof.
  revert val. induction k as [|k IH]; intros val.
  - exists [], val. split; [constructor | by left].
  - destruct val as [d|v].
    { exists [], (SDict d). split; [constructor | by right]. }
    destruct v as [|n|b|z|q|str];
      try (eexists [], _; split; [constructor | by right]).
    destruct (objs !! n) as [val'|] eqn:En.
    + destruct (IH val') as (ns & s & H & Hk). exists (n :: ns), s.
      split; [by eapply path_hop|]. destruct Hk as [<-|He]; [by left | by right].
    + exists [], (SVal (PUID n)). split; [constructor|]. right.
      by intros ? [= <-].
Qed.

Lemma resolve_from_path (objs : list slot) (val : slot) (ns : list nat) (s : slot) :
  path objs val ns s -> (forall n, s <> SVal (PUID n)) ->
  forall fuel loc,
    resolve_from objs fuel loc val
    = if decide (length ns <= fuel)%nat
      then Some (Ok (from_option Some loc (last ns), s)) else None.
Proof.
  induction 1 as [val|n val' ns s Hn H IH]; intros Hs fuel loc.
  - rewrite decide_True by (simpl; lia).
    destruct val as [d|v]; [by destruct fuel|].
    destruct v; try by destruct fuel. by destruct (Hs n).
  - destruct fuel as [|fuel]; [done|]. cbn [resolve_from]. rewrite Hn, (IH Hs).
    rewrite last_cons. cbn [length].
    destruct (decide (length ns <= fuel)%nat), (decide (S (length ns) <= S fuel)%nat);
      try lia; [|done].
    by destruct (last ns).
Qed.

Lemma resolve_from_path_dangling (objs : list slot) (val : slot) (ns : list nat)
  (s : slot) :
  path objs val ns s ->
  forall n, s = SVal (PUID n) -> objs !! n = None ->
  forall fuel loc,
    resolve_from objs fuel loc val
    = if decide (length ns < fuel)%nat then Some (Raise IndexError) else None.
Proof.
  induction 1 as [val|m val' ns s Hm H IH]; intros n -> Hn fuel loc.
  - destruct fuel as [|fuel]; [done|]. cbn [resolve_from]. rewrite Hn.
    by rewrite decide_True by (simpl; lia).
  - destruct fuel as [|fuel]; [done|]. cbn [resolve_from].
    rewrite Hm, (IH n eq_refl Hn). cbn [length].
    destruct (decide (length ns < fuel)%nat), (decide (S (length ns) < S fuel)%nat);
      try lia; done.
Qed.

(** when the loop leaves, the chain it followed has come to an end *)
Lemma resolve_from_ends (objs : list slot) (fuel : nat) (loc : option nat)
  (val : slot) (r : res (option nat * slot)) :
  resolve_from objs fuel loc val = Some r ->
  exists ns s, path objs val ns s /\ (forall n, s = SVal (PUID n) -> objs !! n = None).
Proof.
  revert loc val. induction fuel as [|fuel IH]; intros loc val H.
  - exists [], val. split; [constructor|]. by intros n ->.
  - destruct val as [d|v]; [by exists [], (SDict d); split; [constructor|]|].
    destruct v as [|n|b|z|q|str];
      try (eexists [], _; split; [constructor | done]).
    cbn [resolve_from] in H. destruct (objs !! n) as [val'|] eqn:En.
    + destruct (IH _ _ H) as (ns & s & Hp & He). exists (n :: ns), s.
      split; [by eapply path_hop | done].
    + exists [], (SVal (PUID n)). split; [constructor|]. by intros ? [= <-].
Qed.

(** a chain that visits a slot twice keeps the loop running for ever *)
Lemma resolve_from_cycle (objs : list slot) (val : slot) (ns : list nat) (s : slot) :
  path objs val ns s -> ~ NoDup ns ->
  forall fuel loc, resolve_from objs fuel loc val = None.
Proof.
  intros H Hdup fuel loc.
  destruct (resolve_from objs fuel loc val) as [r|] eqn:E; [|done].
  destruct (resolve_from_ends _ _ _ _ _ E) as (ns' & s' & H' & He).
  pose proof (path_end_NoDup _ _ _ _ H' He) as Hnd. destruct Hdup.
  destruct (decide (length ns <= length ns')%nat) as [Hle|Hgt].
  - destruct (path_prefix _ _ _ _ H _ _ H' Hle) as (rest & -> & _).
    by apply NoDup_app in Hnd as [? _].
  - destruct (path_prefix _ _ _ _ H' _ _ H) as (rest & -> & Hrest); [lia|].
    apply (path_end_nil _ _ _ _ He) in Hrest as ->. by rewrite app_nil_r.
Qed.

(** C3, amended: the resolver has no guard and no error of its own; what it
    does is fixed by the chain of references that starts at the value.
    When the chain arrives at an object that is not a reference, it does so
    after lookups in pairwise distinct slots, hence at most slot-count of
    them, and the resolver returns that object, found in the last slot
    visited, as soon as it is allowed that many turns.  When the chain
    arrives at a reference that points outside the slot table, again after
    at most slot-count successful lookups in distinct slots, the next
    lookup raises the index error of the language.  When the chain visits
    a slot twice, the loop never leaves and nothing is raised.  One of the
    three is the case for every slot table and every value. *)
Theorem resolve_follows_references (objs : list slot) (val : pval) :
  (forall ns s,
     path objs (SVal val) ns s -> (forall n, s <> SVal (PUID n)) ->
     NoDup ns /\ (length ns <= length objs)%nat
     /\ forall fuel,
          resolve objs fuel val
          = if decide (length ns <= fuel)%nat then Some (Ok (last ns, s)) else None)
  /\ (forall ns n,
        path objs (SVal val) ns (SVal (PUID n)) -> objs !! n = None ->
        NoDup ns /\ (length ns <= length objs)%nat
        /\ forall fuel,
             resolve objs fuel val
             = if decide (length ns < fuel)%nat then Some (Raise IndexError) else None)
  /\ (forall ns s,
        path objs (SVal val) ns s -> ~ NoDup ns ->
        forall fuel, resolve objs fuel val = None)
  /\ (exists ns s,
        path objs (SVal val) ns s
        /\ ((forall n, s <> SVal (PUID n))
            \/ (exists n, s = SVal (PUID n) /\ objs !! n = None)
            \/ ~ NoDup ns)).
Proof.
  split; [|split; [|split]].
  - intros ns s H Hs.
    assert (NoDup ns) as Hnd.
    { apply (path_end_NoDup _ _ _ _ H). intros n ->. by destruct (Hs n). }
    split; [done|]. split; [by eapply path_NoDup_length|].
    intros fuel. unfold resolve. rewrite (resolve_from_path _ _ _ _ H Hs).
    destruct (decide _); [|done]. by destruct (last ns).
  - intros ns n H Hn.
    assert (NoDup ns) as Hnd.
    { apply (path_end_NoDup _ _ _ _ H). by intros ? [= <-]. }
    split; [done|]. split; [by eapply path_NoDup_length|].
    intros fuel. unfold resolve. by rewrite (resolve_from_path_dangling _ _ _ _ H n).
  - intros ns s H Hdup fuel. by apply (resolve_from_cycle _ _ _ _ H).
  - destruct (path_exists objs (S (length objs)) (SVal val)) as (ns & s & H & Hk).
    exists ns, s. split; [done|]. destruct Hk as [Hlen|He].
    + right. right. intros Hnd. pose proof (path_NoDup_length _ _ _ _ H Hnd). lia.
    + destruct s as [d|v]; [by left|].
      destruct v as [|n|b|z|q|str]; try by left.
      right. left. exists n. split; [done|]. by apply He.
Qed.

(** on the chain of three references of [g_chain], which starts at slot 0
    and reaches the record in slot 1 through slot 2 *)
Lemma resolve_follows_references_witness :
  NoDup [0; 2; 1]%nat /\ (3 <= length g_chain)%nat
  /\ forall fuel,
       resolve g_chain fuel (PUID 0)
       = if decide (3 <= fuel)%nat
         then Some (Ok (Some 1%nat, SDict {[ KStr "NS.time" := PReal 0 ]}))
         else None.
Proof.
  apply (proj1 (resolve_follows_references g_chain (PUID 0)) [0; 2; 1]%nat
           (SDict {[ KStr "NS.time" := PReal 0 ]})).
  - eapply path_hop; [reflexivity|]. eapply path_hop; [reflexivity|].
    eapply path_hop; [reflexivity|]. constructor.
  - discriminate.
Defined.

(** ** The locals of the patcher *)

Lemma num_raise (x : value) (e : exn) : num x = Raise e -> e = TypeError.
Proof. destruct x; simpl; congruence. Qed.

(** whatever else the row holds, the division of line 272 raises when
    [BrushRevision] is absent or null *)
Lemma read_locals_needs_revision (fpow : Q -> Q -> Q) (variant : variant_row) :
  variant !! "BrushRevision" = None \/ variant !! "BrushRevision" = Some VNone ->
  read_locals fpow variant = Raise TypeError.
Proof.
  intros H.
  assert (get_ variant "BrushRevision" = VNone) as Hrev.
  { unfold get_. destruct H as [H|H];
      [by rewrite (get_none _ _ _ H) | by rewrite (get_some _ _ _ _ H)]. }
  unfold read_locals. destruct (spacing_in_range variant) as (q & -> & _).
  res_simpl. rewrite Hrev.
  unfold min_, max_, lt_, div_. cbn [num]. res_simpl.
  destruct (num (get variant "BrushFlow" (VInt 1000))) as [fl|e] eqn:Efl;
    [|by rewrite (num_raise _ _ Efl)].
  res_simpl.
  assert (exists m, num (if Qltb fl (inject_Z 1000)
                         then get variant "BrushFlow" (VInt 1000)
                         else VInt 1000) = Ok m) as [m ->].
  { destruct (Qltb fl (inject_Z 1000)); [by exists fl | by eexists]. }
  res_simpl.
  destruct (num (get variant "BrushRotationRandomScale" (VInt 0))) as [sc|e] eqn:Esc;
    [|by rewrite (num_raise _ _ Esc)].
  reflexivity.
Qed.

(** C2, on the code: the locals cannot be computed from the variant row of
    the end-to-end scenario, which has no [BrushRevision], nor from that row
    with a null [BrushRevision]; the patcher raises before it touches the
    graph.  With [BrushRevision] present, a
    row without [BrushRotation] raises at a record that has a rotation
    field, and a row with the in-taper on and no [BrushInLength] raises at a
    record that has a taper start length. *)
Theorem read_locals_missing_field (fpow : Q -> Q -> Q) :
  v_plain !! "BrushRevision" = None
  /\ read_locals fpow v_plain = Raise TypeError
  /\ read_locals fpow (<["BrushRevision" := VNone]> v_plain) = Raise TypeError
  /\ (forall fuel objs new_name now,
        finalise_seed_brush fpow fuel objs new_name now v_plain
        = Some (Raise TypeError))
  /\ (forall fuel new_name now,
        finalise_seed_brush fpow fuel g_rotation new_name now v_no_rotation
        = Some (Raise TypeError))
  /\ (forall fuel new_name now,
        finalise_seed_brush fpow fuel g_taper new_name now v_no_in_length
        = Some (Raise TypeError)).
Proof.
  assert (read_locals fpow v_plain = Raise TypeError) as H.
  { apply read_locals_needs_revision. by left. }
  split; [reflexivity|]. split; [done|]. split; [|split; [|split]].
  - apply read_locals_needs_revision. by right.
  - intros. unfold finalise_seed_brush. by rewrite H.
  - intros. vm_compute. reflexivity.
  - intros. vm_compute. reflexivity.
Qed.

(** ** The walk over the graph *)

(** the walk leaves at the first record after which both claim-once fields
    are set, whatever lies behind it *)
Lemma walk_leaves_early (fuel : nat) (L : locals) (now : Q) (new_name : string)
  (todo i : nat) (objs objs' : list slot) (obj : record) (stamped renamed : bool) :
  objs !! i = Some (SDict obj) ->
  patch_slot fuel L now new_name i obj objs stamped renamed = Some (Ok (objs', true, true)) ->
  walk fuel L now new_name (S todo) i objs stamped renamed = Some (Ok objs').
Proof. intros Hi Hp. cbn [walk]. by rewrite Hi, Hp. Qed.

(** C1, on the code: in a template whose first record carries the name, the
    creation date and a spacing, the walk stops at that record, once both
    claim-once fields are set; the spacing of the record in slot 3 keeps
    the template's value 0.5 while the one in slot 0 becomes 0.015. *)
Theorem walk_stops_before_second_spacing (fpow : Q -> Q -> Q) :
  exists out q,
    finalise_seed_brush fpow 4 g_two_spacings "Stamp 1" 17 v_complete = Some (Ok out)
    /\ out !! 1%nat = Some (SVal (PStr "Stamp 1"))
    /\ field out 2 "NS.time" = Some (PReal 17)
    /\ field out 0 "plotSpacing" = Some (PReal q) /\ (q == 0.015)%Q
    /\ field g_two_spacings 3 "plotSpacing" = Some (PReal 0.5)
    /\ field out 3 "plotSpacing" = Some (PReal 0.5)
    /\ ~ (q == 0.5)%Q.
Proof.
  eexists _, _. split; [vm_compute; reflexivity|].
  repeat split; try reflexivity. discriminate.
Qed.

(** * Further properties of the code *)

(** ** The container scanner *)

Lemma find_from_spec (sub l : bytes) (i : Z) :
  (find_from sub l i = (-1)%Z
   /\ forall k, (k <= length l)%nat -> starts_with sub (drop k l) = false)
  \/ (exists k, (k <= length l)%nat
        /\ find_from sub l i = (i + Z.of_nat k)%Z
        /\ starts_with sub (drop k l) = true
        /\ forall k', (k' < k)%nat -> starts_with sub (drop k' l) = false).
Proof.
  revert i. induction l as [|b l IH]; intros i; cbn [find_from].
  - destruct (starts_with sub []) eqn:E.
    + right. exists 0%nat. cbn [drop length]. rewrite E.
      repeat split; [lia | lia | intros; lia].
    + left. split; [done|]. intros k _. by rewrite drop_nil.
  - destruct (starts_with sub (b :: l)) eqn:E.
    + right. exists 0%nat. cbn [drop]. rewrite E.
      repeat split; [lia | lia | intros; lia].
    + destruct (IH (i + 1)%Z) as [[Hr Hno] | (k & Hk & Hr & Hat & Hbefore)].
      * left. split; [done|]. intros [|k] Hk; [done|].
        cbn [drop]. apply Hno. cbn [length] in Hk. lia.
      * right. exists (S k). cbn [drop length]. rewrite Hr.
        repeat split; [lia | lia | done |].
        intros [|k'] Hk'; [done|]. cbn [drop]. apply Hbefore. lia.
Qed.

Lemma find_first (sub blob : bytes) :
  (find blob sub = (-1)%Z /\ forall q, ~ occurs_at sub blob q)
  \/ ((0 <= find blob sub)%Z /\ first_occurrence sub blob (Z.to_nat (find blob sub))).
Proof.
  unfold find.
  destruct (find_from_spec sub blob 0) as [[-> Hno] | (k & Hk & -> & Hat & Hbefore)].
  - left. split; [done|]. intros q [Hq E]%occurs_at_drop. by rewrite Hno in E.
  - right. split; [lia|]. replace (Z.to_nat (0 + Z.of_nat k)) with k by lia. split.
    + by apply occurs_at_drop.
    + intros q [Hq E]%occurs_at_drop. destruct (decide (k <= q)%nat); [done|].
      rewrite Hbefore in E; [done | lia].
Qed.

Lemma first_occurrence_unique (sub blob : bytes) (p q : nat) :
  first_occurrence sub blob p -> first_occurrence sub blob q -> p = q.
Proof.
  intros [Hp Hp'] [Hq Hq']. apply Hp' in Hq. apply Hq' in Hp. lia.
Qed.

(** X1: the scanner returns the offset of the first occurrence of the store
    header, and raises [ValueError] exactly when the header occurs nowhere. *)
Theorem locate_sqlite_offset_first (data : bytes) :
  (forall off, locate_sqlite_offset data = Scanned off
               <-> (0 <= off)%Z /\ first_occurrence SQLITE_MAGIC data (Z.to_nat off))
  /\ ((exists msg, locate_sqlite_offset data = ValueError msg)
      <-> forall q, ~ occurs_at SQLITE_MAGIC data q).
Proof.
  unfold locate_sqlite_offset.
  destruct (find_first SQLITE_MAGIC data) as [[E Hno] | [Hge Hfirst]].
  - rewrite E. cbn. split.
    + intros off. split; [done|]. intros [_ [Hocc _]]. by destruct (Hno _ Hocc).
    + split; [done | by eexists].
  - destruct (Z.eqb_spec (find data SQLITE_MAGIC) (-1)); [lia|]. split.
    + intros off. split.
      * intros [= <-]. done.
      * intros [Hoff Hfirst']. f_equal.
        pose proof (first_occurrence_unique _ _ _ _ Hfirst Hfirst'). lia.
    + split; [by intros [msg ?]|]. intros Hno. destruct Hfirst as [Hocc _].
      by destruct (Hno _ Hocc).
Qed.

Lemma slice_to_end (blob : bytes) (b : nat) :
  (b <= length blob)%nat ->
  slice blob (Z.of_nat b) (Z.of_nat (length blob)) = drop b blob.
Proof.
  intros H. rewrite slice_in_range by lia.
  apply take_ge. rewrite length_drop. lia.
Qed.

Lemma find_at_head (sub rest : bytes) : find (sub ++ rest) sub = 0%Z.
Proof.
  unfold find.
  assert (starts_with sub (sub ++ rest) = true) as H
    by (apply starts_with_spec; by exists rest).
  destruct (sub ++ rest); cbn [find_from]; by rewrite H.
Qed.

(** X2: the store that is dumped is the tail of the container from the
    first header on: it begins with the header, no header occurs in the
    container before it, and scanning or dumping the store again gives
    offset 0 and the same store. *)
Theorem dump_sqlite_blob_store (raw store : bytes) :
  dump_sqlite_blob raw = Scanned store ->
  exists pre rest,
    raw = pre ++ store
    /\ store = SQLITE_MAGIC ++ rest
    /\ (forall q, occurs_at SQLITE_MAGIC raw q -> (length pre <= q)%nat)
    /\ locate_sqlite_offset store = Scanned 0%Z
    /\ dump_sqlite_blob store = Scanned store.
Proof.
  unfold dump_sqlite_blob, locate_sqlite_offset.
  destruct (find_first SQLITE_MAGIC raw) as [[E _] | [Hge [Hocc Hmin]]];
    [by rewrite E|].
  destruct (Z.eqb_spec (find raw SQLITE_MAGIC) (-1)); [lia|]. intros [= <-].
  set (k := Z.to_nat (find raw SQLITE_MAGIC)) in *.
  destruct Hocc as (pre & post & Hraw & Hpre).
  assert (k <= length raw)%nat as Hk by (rewrite Hraw, length_app; lia).
  replace (find raw SQLITE_MAGIC) with (Z.of_nat k) by lia.
  rewrite slice_to_end by done.
  assert (drop k raw = SQLITE_MAGIC ++ post) as Hstore.
  { by rewrite Hraw, <- Hpre, drop_app_length. }
  rewrite Hstore. exists pre, post. split; [done|]. split; [done|].
  split; [by rewrite Hpre|].
  rewrite find_at_head. cbn [Z.eqb]. split; [done|]. f_equal.
  apply (slice_to_end _ 0). lia.
Qed.

Lemma dump_sqlite_blob_store_witness :
  exists pre rest,
    raw_container = pre ++ (SQLITE_MAGIC ++ [x00; x10])
    /\ SQLITE_MAGIC ++ [x00; x10] = SQLITE_MAGIC ++ rest
    /\ (forall q, occurs_at SQLITE_MAGIC raw_container q -> (length pre <= q)%nat)
    /\ locate_sqlite_offset (SQLITE_MAGIC ++ [x00; x10]) = Scanned 0%Z
    /\ dump_sqlite_blob (SQLITE_MAGIC ++ [x00; x10])
       = Scanned (SQLITE_MAGIC ++ [x00; x10]).
Proof.
  apply (dump_sqlite_blob_store raw_container (SQLITE_MAGIC ++ [x00; x10])).
  reflexivity.
Defined.

(** ** The payload extraction *)

Lemma rfind_ge (sub blob : bytes) (q : nat) :
  occurs_at sub blob q -> (Z.of_nat q <= rfind blob sub)%Z.
Proof.
  intros [Hq Hat]%occurs_at_drop. unfold rfind.
  destruct (rfind_from_spec sub blob 0 (-1)) as [[_ Hno] | (k & Hk & -> & _ & Hlast)].
  - by rewrite Hno in Hat.
  - destruct (decide (q <= k)%nat); [lia|]. rewrite Hlast in Hat; [done | lia].
Qed.

(** X3: the extraction succeeds exactly on the blobs that hold the start
    token at some offset other than 0 and the end marker somewhere; a blob
    whose start token occurs nowhere, or at offset 0 only, is reported as
    lacking the signature, and one with a start token but no end marker as
    lacking the end marker. *)
Theorem extract_outcome (blob : bytes) :
  let has_png := exists p, (1 <= p)%nat /\ occurs_at PNG_TOKEN blob p in
  let has_iend := exists i, occurs_at IEND_MARKER blob i in
  ((exists png, _extract_png_from_layer blob = Ok png) <-> has_png /\ has_iend)
  /\ (~ has_png ->
      _extract_png_from_layer blob
      = Raise (RuntimeError "PNG signature not found in layer blob"))
  /\ (has_png -> ~ has_iend ->
      _extract_png_from_layer blob
      = Raise (RuntimeError "IEND marker not found in layer blob")).
Proof.
  cbn zeta. unfold _extract_png_from_layer.
  destruct (Z.leb_spec (rfind blob PNG_TOKEN) 0) as [Hp|Hp].
  - assert (~ exists p, (1 <= p)%nat /\ occurs_at PNG_TOKEN blob p) as Hno.
    { intros (p & Hp1 & Hocc). apply rfind_ge in Hocc. lia. }
    split; [|split]; [|done|by intros H; destruct Hno].
    split; [by intros [png ?] | by intros [H _]; destruct Hno].
  - assert (exists p, (1 <= p)%nat /\ occurs_at PNG_TOKEN blob p) as Hyes.
    { destruct (rfind_found PNG_TOKEN blob) as [_ [Hocc _]]; [lia|].
      exists (Z.to_nat (rfind blob PNG_TOKEN)). split; [lia | done]. }
    destruct (Z.eqb_spec (rfind blob IEND_MARKER) (-1)) as [Hi|Hi].
    + assert (~ exists i, occurs_at IEND_MARKER blob i) as Hno.
      { intros (i & Hocc). apply rfind_ge in Hocc. lia. }
      split; [|split]; [|by intros H; destruct H|done].
      split; [by intros [png ?] | by intros [_ H]; destruct Hno].
    + assert (exists i, occurs_at IEND_MARKER blob i) as Hyes'.
      { destruct (rfind_found IEND_MARKER blob Hi) as [_ [Hocc _]]. by eexists. }
      split; [|split]; [|by intros H; destruct H|by intros _ H; destruct H].
      split; [done | by eexists].
Qed.

Lemma occurs_at_lookup (sub blob : bytes) (p k : nat) (b : byte) :
  occurs_at sub blob p -> sub !! k = Some b -> blob !! (p + k)%nat = Some b.
Proof.
  intros (pre & post & -> & <-) Hk.
  rewrite lookup_app_r by lia. replace (length pre + k - length pre)%nat with k by lia.
  by apply lookup_app_l_Some.
Qed.

(** the end marker cannot begin inside the start token *)
Lemma markers_apart (blob : bytes) (p i : nat) :
  occurs_at PNG_TOKEN blob p -> occurs_at IEND_MARKER blob i -> (p < i)%nat ->
  (p + 3 <= i)%nat.
Proof.
  intros Hp Hi Hlt.
  pose proof (occurs_at_lookup _ _ _ 0 x49 Hi eq_refl) as HI.
  rewrite Nat.add_0_r in HI.
  destruct (decide (i = p + 1)%nat) as [->|].
  { pose proof (occurs_at_lookup _ _ _ 1 x4e Hp eq_refl). congruence. }
  destruct (decide (i = p + 2)%nat) as [->|]; [|lia].
  pose proof (occurs_at_lookup _ _ _ 2 x47 Hp eq_refl). congruence.
Qed.

(** X4: on a well-formed blob the payload is the byte in front of the last
    start token, the token, the bytes up to the last end marker, and the
    four bytes of the marker; nothing that follows the marker in the blob
    (the checksum of the closing chunk) is part of it. *)
Theorem extract_payload_frame (blob : bytes) (p i : nat) :
  last_occurrence PNG_TOKEN blob p -> (1 <= p)%nat ->
  last_occurrence IEND_MARKER blob i -> (p < i)%nat ->
  exists tag mid,
    blob !! (p - 1)%nat = Some tag
    /\ _extract_png_from_layer blob = Ok (tag :: PNG_TOKEN ++ mid ++ IEND_MARKER)
    /\ length mid = (i - (p + 3))%nat.
Proof.
  intros Hp Hp1 Hi Hpi.
  destruct (extract_range blob p i Hp Hp1 Hi Hpi) as [-> Hlen].
  pose proof (markers_apart blob p i (proj1 Hp) (proj1 Hi) Hpi) as Hapart.
  destruct Hp as [(pre1 & post1 & Hb1 & Hpre1) _].
  destruct Hi as [(pre2 & post2 & Hb2 & Hpre2) _].
  assert (drop p blob = PNG_TOKEN ++ post1) as Hdp
    by (by rewrite Hb1, <- Hpre1, drop_app_length).
  assert (drop i blob = IEND_MARKER ++ post2) as Hdi
    by (by rewrite Hb2, <- Hpre2, drop_app_length).
  assert (is_Some (blob !! (p - 1)%nat)) as [tag Htag] by (apply lookup_lt_is_Some; lia).
  exists tag, (take (i - (p + 3)) post1). split; [done|].
  assert (post1 = drop (p + 3) blob) as Hpost1.
  { rewrite <- drop_drop, Hdp. done. }
  split.
  - f_equal. rewrite (drop_S _ _ _ Htag). replace (S (p - 1)) with p by lia.
    replace (i + 4 - (p - 1))%nat with (S (3 + (i - (p + 3) + 4)))%nat by lia.
    cbn [take]. f_equal. rewrite Hdp.
    rewrite (take_app_add' PNG_TOKEN post1 3) by done. f_equal.
    rewrite <- take_take_drop. f_equal.
    rewrite Hpost1, drop_drop.
    replace (p + 3 + (i - (p + 3)))%nat with i by lia.
    by rewrite Hdi.
  - rewrite length_take, Hpost1, length_drop. lia.
Qed.

Lemma extract_payload_frame_witness :
  exists tag mid,
    blob_framed !! (2 - 1)%nat = Some tag
    /\ _extract_png_from_layer blob_framed = Ok (tag :: PNG_TOKEN ++ mid ++ IEND_MARKER)
    /\ length mid = (7 - (2 + 3))%nat.
Proof.
  apply (extract_payload_frame blob_framed 2 7).
  - apply last_occurrence_rfind. reflexivity.
  - lia.
  - apply last_occurrence_rfind. reflexivity.
  - lia.
Defined.

(** ** The row loop *)

Lemma extract_rows_paths (idx : nat) (rows : list (Z * bytes)) (acc : extraction)
  (j : nat) (png : bytes) :
  (j, png) ∈ paths (extract_rows idx rows acc)
  <-> (j, png) ∈ paths acc
      \/ ((idx <= j)%nat
          /\ exists _id blob, rows !! (j - idx)%nat = Some (_id, blob)
                              /\ _extract_png_from_layer blob = Ok png).
Proof.
  revert idx acc. induction rows as [|[_id blob] rows IH]; intros idx acc.
  - cbn [extract_rows]. split; [by left|]. intros [H|(_ & _id & blob & H & _)]; done.
  - cbn [extract_rows]. destruct (_extract_png_from_layer blob) as [png0|exc] eqn:E;
      rewrite IH; cbn [paths].
    + rewrite elem_of_app, list_elem_of_singleton. split.
      * intros [[H|[= -> ->]]|(Hj & _id' & blob' & Hrow & Hex)].
        -- by left.
        -- right. split; [done|]. exists _id, blob. by rewrite Nat.sub_diag.
        -- right. split; [lia|]. exists _id', blob'. split; [|done].
           replace (j - idx)%nat with (S (j - S idx)) by lia. done.
      * intros [H|(Hj & _id' & blob' & Hrow & Hex)]; [by left; left|].
        destruct (decide (j = idx)) as [->|Hne].
        -- rewrite Nat.sub_diag in Hrow. injection Hrow as <- <-.
           left. right. congruence.
        -- right. split; [lia|]. exists _id', blob'. split; [|done].
           replace (j - idx)%nat with (S (j - S idx)) in Hrow by lia. done.
    + split.
      * intros [H|(Hj & _id' & blob' & Hrow & Hex)]; [by left|].
        right. split; [lia|]. exists _id', blob'. split; [|done].
        replace (j - idx)%nat with (S (j - S idx)) by lia. done.
      * intros [H|(Hj & _id' & blob' & Hrow & Hex)]; [by left|].
        destruct (decide (j = idx)) as [->|Hne].
        -- rewrite Nat.sub_diag in Hrow. injection Hrow as <- <-. congruence.
        -- right. split; [lia|]. exists _id', blob'. split; [|done].
           replace (j - idx)%nat with (S (j - S idx)) in Hrow by lia. done.
Qed.

Lemma extract_rows_warnings (idx : nat) (rows : list (Z * bytes)) (acc : extraction)
  (_id : Z) (exc : exn) :
  (_id, exc) ∈ warnings (extract_rows idx rows acc)
  <-> (_id, exc) ∈ warnings acc
      \/ exists blob, (_id, blob) ∈ rows /\ _extract_png_from_layer blob = Raise exc.
Proof.
  revert idx acc. induction rows as [|[id0 blob0] rows IH]; intros idx acc.
  - cbn [extract_rows]. split; [by left|]. intros [H|(blob & H & _)]; [done|].
    by apply elem_of_nil in H.
  - cbn [extract_rows]. destruct (_extract_png_from_layer blob0) as [png0|exc0] eqn:E;
      rewrite IH; cbn [warnings].
    + split.
      * intros [H|(blob & Hin & Hex)]; [by left|]. right. exists blob.
        split; [by apply elem_of_cons; right | done].
      * intros [H|(blob & Hin & Hex)]; [by left|]. right. exists blob.
        apply elem_of_cons in Hin as [[= -> ->]|Hin]; [congruence | done].
    + rewrite elem_of_app, list_elem_of_singleton. split.
      * intros [[H|[= -> ->]]|(blob & Hin & Hex)].
        -- by left.
        -- right. exists blob0. split; [by apply elem_of_cons; left | done].
        -- right. exists blob. split; [by apply elem_of_cons; right | done].
      * intros [H|(blob & Hin & Hex)]; [by left; left|].
        apply elem_of_cons in Hin as [[= -> ->]|Hin].
        -- left. right. congruence.
        -- right. by exists blob.
Qed.

Lemma extract_rows_sorted (idx : nat) (rows : list (Z * bytes)) (acc : extraction) :
  StronglySorted lt (paths acc).*1 ->
  Forall (fun j => j < idx)%nat (paths acc).*1 ->
  StronglySorted lt (paths (extract_rows idx rows acc)).*1.
Proof.
  revert idx acc. induction rows as [|[_id blob] rows IH]; intros idx acc Hs Hlt; [done|].
  cbn [extract_rows]. destruct (_extract_png_from_layer blob) as [png0|exc].
  - apply IH; cbn [paths]; rewrite fmap_app.
    + apply StronglySorted_app_2; [|done|repeat constructor].
      intros x1 x2 Hx1 ->%list_elem_of_singleton.
      by eapply (proj1 (Forall_forall _ _) Hlt).
    + apply Forall_app. split; [|repeat constructor].
      eapply Forall_impl; [done|]. intros; simpl in *; lia.
  - apply IH; cbn [paths]; [done|].
    eapply Forall_impl; [done|]. intros; simpl in *; lia.
Qed.

Lemma extract_pngs_from_sut_paths (rows : list (Z * bytes)) :
  rows <> [] ->
  exists e,
    extract_pngs_from_sut rows = Ok e
    /\ (forall j png,
          (j, png) ∈ paths e
          <-> exists _id blob, rows !! j = Some (_id, blob)
                               /\ _extract_png_from_layer blob = Ok png).
Proof.
  intros Hne. destruct rows as [|row rows]; [done|].
  eexists. split; [reflexivity|].
  intros j png. rewrite extract_rows_paths. cbn [paths].
  rewrite Nat.sub_0_r. split.
  - intros [H|[_ H]]; [by apply elem_of_nil in H | done].
  - intros H. right. split; [lia | done].
Qed.

(** X5: once the query has answered with at least one row, the loop raises
    nothing.  The stamp files it writes are exactly the payloads of the rows
    whose extraction succeeds, each numbered with the position of its row
    (so a skipped row leaves a gap), in ascending order of that number; the
    rows it reports are exactly those whose extraction raises. *)
Theorem extract_pngs_from_sut_stamps (rows : list (Z * bytes)) :
  rows <> [] ->
  exists e,
    extract_pngs_from_sut rows = Ok e
    /\ (forall j png,
          (j, png) ∈ paths e
          <-> exists _id blob, rows !! j = Some (_id, blob)
                               /\ _extract_png_from_layer blob = Ok png)
    /\ StronglySorted lt (paths e).*1
    /\ (forall _id exc,
          (_id, exc) ∈ warnings e
          <-> exists blob, (_id, blob) ∈ rows
                           /\ _extract_png_from_layer blob = Raise exc).
Proof.
  intros Hne. destruct rows as [|row rows]; [done|].
  eexists. split; [reflexivity|]. split; [|split].
  - intros j png. rewrite extract_rows_paths. cbn [paths].
    rewrite Nat.sub_0_r. split.
    + intros [H|[_ H]]; [by apply elem_of_nil in H | done].
    + intros H. right. split; [lia | done].
  - apply extract_rows_sorted; cbn [paths]; constructor.
  - intros _id exc. rewrite extract_rows_warnings. cbn [warnings]. split.
    + intros [H|H]; [by apply elem_of_nil in H | done].
    + intros H. by right.
Qed.

Lemma extract_pngs_from_sut_stamps_witness :
  exists e,
    extract_pngs_from_sut rows_mixed = Ok e
    /\ (forall j png,
          (j, png) ∈ paths e
          <-> exists _id blob, rows_mixed !! j = Some (_id, blob)
                               /\ _extract_png_from_layer blob = Ok png)
    /\ StronglySorted lt (paths e).*1
    /\ (forall _id exc,
          (_id, exc) ∈ warnings e
          <-> exists blob, (_id, blob) ∈ rows_mixed
                           /\ _extract_png_from_layer blob = Raise exc).
Proof.
  apply (extract_pngs_from_sut_stamps rows_mixed). discriminate.
Defined.

(** X6: the head of [main] has three outcomes.  It raises the run-time error
    of the extractor exactly when the query returned no row, exits with
    "No PNG stamps found" exactly when there are rows and the extraction of
    every one of them raises, and goes on, with a non-empty list of stamps,
    exactly when the extraction of some row succeeds. *)
Theorem main_stamps_outcome (rows : list (Z * bytes)) :
  ((exists msg, main_stamps rows = Raised (RuntimeError msg)) <-> rows = [])
  /\ ((exists msg, main_stamps rows = SystemExit msg)
      <-> rows <> []
          /\ forall _id blob, (_id, blob) ∈ rows ->
                              exists exc, _extract_png_from_layer blob = Raise exc)
  /\ ((exists pngs, main_stamps rows = Returned pngs /\ pngs <> [])
      <-> exists _id blob png, (_id, blob) ∈ rows
                               /\ _extract_png_from_layer blob = Ok png)
  /\ (forall e, main_stamps rows = Raised e -> exists msg, e = RuntimeError msg).
Proof.
  destruct rows as [|row rows].
  { cbn. split; [|split; [|split]].
    - split; [done | by eexists].
    - split; [by intros [msg ?] | by intros [? _]].
    - split; [by intros (pngs & ? & _)|].
      intros (_id & blob & png & H & _). by apply elem_of_nil in H.
    - intros e [= <-]. by eexists. }
  destruct (extract_pngs_from_sut_paths (row :: rows)) as (e & He & Hpaths); [done|].
  unfold main_stamps. rewrite He.
  assert ((exists _id blob png, (_id, blob) ∈ row :: rows
                                /\ _extract_png_from_layer blob = Ok png)
          <-> paths e <> []) as Hsome.
  { split.
    - intros (_id & blob & png & [j Hj]%list_elem_of_lookup & Hex) Hnil.
      assert ((j, png) ∈ paths e) as Hin by (apply Hpaths; eauto).
      rewrite Hnil in Hin. by apply elem_of_nil in Hin.
    - destruct (paths e) as [|[j png] l] eqn:El; [done|]. intros _.
      destruct (proj1 (Hpaths j png)) as (_id & blob & Hrow & Hex).
      { apply elem_of_cons. by left. }
      exists _id, blob, png. split; [|done]. apply list_elem_of_lookup. by exists j. }
  split; [|split; [|split]].
  - split; [|done]. intros [msg H]. by destruct (paths e).
  - split.
    + intros [msg H]. split; [done|]. intros _id blob Hin.
      destruct (_extract_png_from_layer blob) as [png|exc] eqn:E; [|by eexists].
      destruct (paths e); [|done].
      exfalso. apply (proj1 Hsome); [|done]. by exists _id, blob, png.
    + intros [_ Hall]. destruct (paths e); [by eexists|].
      destruct (proj2 Hsome) as (_id & blob & png & Hin & Hex); [done|].
      destruct (Hall _ _ Hin) as [exc Hexc]. congruence.
  - rewrite Hsome. split.
    + intros (pngs & H & Hne). destruct (paths e); [done|]. done.
    + intros Hne. destruct (paths e); [done|]. by eexists.
  - intros e' H. by destruct (paths e).
Qed.

(** ** More on the spacing curve *)

Lemma Qinv_antitone (a b : Q) : (0 < a)%Q -> (a <= b)%Q -> (/ b <= / a)%Q.
Proof.
  intros Ha Hab. assert (0 < b)%Q as Hb by (eapply Qlt_le_trans; done).
  assert (/ a == 1 / a)%Q as -> by (unfold Qdiv; ring).
  apply Qle_shift_div_l; [done|].
  assert (/ b * a == a / b)%Q as -> by (unfold Qdiv; ring).
  apply Qle_shift_div_r; [done|]. by rewrite Qmult_1_l.
Qed.

(** X7: without a usable interval - the field absent, null, zero or
    negative - the spacing is the floor 0.01, whatever the brush size. *)
Theorem spacing_floor_without_interval (variant : variant_row) :
  (variant !! "BrushInterval" = None
   \/ exists x, variant !! "BrushInterval" = Some x
                /\ (x = VNone \/ exists q, num x = Ok q /\ (q <= 0)%Q)) ->
  exists q, csp_to_plotSpacing variant = Ok q /\ (q == 0.01)%Q.
Proof.
  intros H.
  destruct (csp_to_plotSpacing_shape variant) as (s & i & _ & Hi & Hs & ->).
  eexists. split; [done|]. destruct (Qle_bool s 0) eqn:E; [done|].
  assert (0 < s)%Q as Hpos.
  { apply Qnot_le_lt. intros Hle. apply Qle_bool_iff in Hle. congruence. }
  assert (i <= 0)%Q as Hi0.
  { destruct H as [H|(x & H & [->|(q & Hq & Hq0)])].
    - rewrite (get_none _ _ _ H) in Hi. by injection Hi as <-.
    - rewrite (get_some _ _ _ _ H) in Hi. by injection Hi as <-.
    - rewrite (get_some _ _ _ _ H) in Hi.
      destruct (or_zero_num x q Hq) as (q' & Hq' & E').
      rewrite Hi in Hq'. injection Hq' as <-. by rewrite E'. }
  apply Q.max_l. apply Qle_trans with 0%Q; [|done].
  apply Qle_trans with (i / s * fudge_for s)%Q; [apply Q.le_min_r|].
  pose proof (fudge_for_pos s) as Hf.
  assert (0 < / s)%Q as Hinv by (by apply Qinv_lt_0_compat).
  assert (0 <= (- i) * / s * fudge_for s)%Q as Hprod.
  { apply Qmult_le_0_compat; [apply Qmult_le_0_compat|]; lra. }
  unfold Qdiv. lra.
Qed.

Lemma spacing_floor_without_interval_witness :
  exists q, csp_to_plotSpacing {[ "BrushSize" := VInt 40 ]} = Ok q /\ (q == 0.01)%Q.
Proof.
  apply (spacing_floor_without_interval {[ "BrushSize" := VInt 40 ]}).
  left. reflexivity.
Defined.

(** X8: inside one size bucket, and for an interval that is not negative, a
    larger brush never gets a larger spacing. *)
Theorem spacing_antitone_in_size (variant : variant_row) (x1 x2 : value) (s1 s2 i : Q) :
  num x1 = Ok s1 -> num x2 = Ok s2 -> (0 < s1)%Q -> (s1 <= s2)%Q ->
  fudge_for s1 = fudge_for s2 ->
  num (or_ (get variant "BrushInterval" (VInt 0)) (VInt 0)) = Ok i -> (0 <= i)%Q ->
  exists q1 q2,
    csp_to_plotSpacing (<["BrushSize" := x1]> variant) = Ok q1
    /\ csp_to_plotSpacing (<["BrushSize" := x2]> variant) = Ok q2
    /\ (q2 <= q1)%Q.
Proof.
  intros H1 H2 Hpos Hle Hf Hi Hi0.
  assert (0 < s2)%Q as Hpos2 by (eapply Qlt_le_trans; done).
  assert (forall x s, num x = Ok s -> (0 < s)%Q ->
            csp_to_plotSpacing (<["BrushSize" := x]> variant)
            = Ok (Qmax 0.01 (Qmin 1.0 (i / s * fudge_for s)))) as Hshape.
  { intros x s Hx Hs.
    destruct (csp_to_plotSpacing_shape (<["BrushSize" := x]> variant))
      as (s' & i' & Hs' & Hi' & _ & ->).
    rewrite get_insert_ne in Hi' by done. rewrite Hi in Hi'. injection Hi' as <-.
    rewrite get_insert_eq in Hs'. unfold or_ in Hs'.
    assert (truthy x = true) as Ht.
    { apply not_false_iff_true. intros Hf'.
      pose proof (falsy_num x s Hf' Hx) as Hz. rewrite Hz in Hs. by apply Qlt_irrefl in Hs. }
    rewrite Ht, Hx in Hs'. injection Hs' as <-.
    assert (Qle_bool s 0 = false) as ->; [|done].
    apply not_true_iff_false. rewrite Qle_bool_iff. by apply Qlt_not_le. }
  do 2 eexists. split; [by apply Hshape|]. split; [by apply Hshape|].
  rewrite <- Hf. apply Q.max_le_compat_l, Q.min_le_compat_l.
  apply Qmult_le_compat_r; [|apply Qlt_le_weak, fudge_for_pos].
  unfold Qdiv. rewrite !(Qmult_comm i).
  apply Qmult_le_compat_r; [|done]. by apply Qinv_antitone.
Qed.

Lemma spacing_antitone_in_size_witness :
  exists q1 q2,
    csp_to_plotSpacing (<["BrushSize" := VInt 10]> v_plain) = Ok q1
    /\ csp_to_plotSpacing (<["BrushSize" := VInt 40]> v_plain) = Ok q2
    /\ (q2 <= q1)%Q.
Proof.
  apply (spacing_antitone_in_size v_plain (VInt 10) (VInt 40)
           (inject_Z 10) (inject_Z 40) (inject_Z 4)).
  - reflexivity.
  - reflexivity.
  - reflexivity.
  - discriminate.
  - reflexivity.
  - reflexivity.
  - discriminate.
Defined.

(** ** More on the rendering flags *)

(** X9: whatever the row, the classifier never switches both transfer flags
    off; it sets modulated transfer only together with recursive mixing,
    and without recursive mixing the result is the light-glaze triple
    (max on, modulated off). *)
Theorem rendering_flags_never_both_off (variant : variant_row) :
  exists flags,
    map_csp_rendering_flags variant = Ok flags
    /\ renderingMaxTransfer flags || renderingModulatedTransfer flags = true
    /\ (renderingModulatedTransfer flags = true -> renderingRecursiveMixing flags = true)
    /\ (renderingMaxTransfer flags = false -> renderingRecursiveMixing flags = true)
    /\ (renderingRecursiveMixing flags = false -> flags = mk_render_flags true false false).
Proof.
  destruct (rf_reads variant) as (mc & ma & fl & Hc & Ha & Hf).
  eexists. split; [by apply map_csp_rendering_flags_shape|].
  unfold rendering_mode.
  destruct (truthy _ || Qltb 0.05 mc || Qltb 0.05 ma);
    [|cbn; repeat split; intros; congruence].
  destruct (Qle_bool 0.75 mc || Qle_bool 0.75 ma);
    [cbn; repeat split; intros; congruence|].
  destruct (Qltb 0.8 fl); cbn; repeat split; intros; congruence.
Qed.

(** ** More on the wet-mix curve *)

Lemma norm100_monotone (x y : Q) : (x <= y)%Q -> (norm100 x <= norm100 y)%Q.
Proof.
  intros H. unfold norm100. apply Q.max_le_compat_l, Q.min_le_compat_l.
  unfold Qdiv. by apply Qmult_le_compat_r.
Qed.

Section WetMixMore.

Variable fpow : Q -> Q -> Q.
Hypothesis fpow_nonneg : forall x y : Q, (0 <= x)%Q -> (0 <= fpow x y)%Q.

(** the dilution as the mapper computes it from what it has read *)
Lemma map_csp_to_wet_mix_shape (variant : variant_row) (mc ma fl : Q) :
  wm_mix_col variant = Ok mc -> wm_mix_alpha variant = Ok ma ->
  wm_flow variant = Ok fl ->
  exists dil,
    map_csp_to_wet_mix fpow variant
    = Ok (mk_wet_mix dil (Qmax 0.2 (1.0 - dil)) (1.0 - 0.5 * norm100 ma)
            (if truthy (get variant "BrushUseWaterColor" (VInt 0)) then 0.6 else 0.0))
    /\ dil = (if negb (truthy (get variant "BrushUseWaterColor" (VInt 0)))
                 && Qltb (norm100 mc) 0.5
              then 0.0
              else Qmin 0.7 (fpow (norm100 mc) 0.75 * 0.7
                             * (0.5 + 0.5 * (1.0 - norm100 fl))
                             + 0.2 * norm100 ma * 0.7))%Q
    /\ (0 <= dil <= 0.7)%Q.
Proof.
  intros Hc Ha Hf. eexists. split; [|split; [reflexivity|]].
  { unfold map_csp_to_wet_mix. rewrite Hc, Ha, Hf. reflexivity. }
  destruct (negb _ && _); [split; done|].
  pose proof (norm100_range mc) as [Hc0 _].
  pose proof (norm100_range ma) as [Ha0 _].
  pose proof (norm100_range fl) as [_ Hf1].
  pose proof (fpow_nonneg (norm100 mc) 0.75 Hc0) as Hbase.
  split; [|apply Q.le_min_l]. apply Q.min_glb; [done|].
  assert (0 <= fpow (norm100 mc) 0.75 * 0.7 * (0.5 + 0.5 * (1.0 - norm100 fl)))%Q.
  { apply Qmult_le_0_compat; [apply Qmult_le_0_compat; [done | done]|]. lra. }
  lra.
Qed.

(** X10: the floor 0.2 of the charge is never reached: the charge is always
    1 - dilution, and at least 0.3. *)
Theorem wet_mix_charge_complement (variant : variant_row) :
  exists w,
    map_csp_to_wet_mix fpow variant = Ok w
    /\ (wetMixCharge w == 1 - wetMixDilution w)%Q
    /\ (0.3 <= wetMixCharge w)%Q.
Proof.
  destruct (wm_reads variant) as (mc & ma & fl & Hc & Ha & Hf).
  destruct (map_csp_to_wet_mix_shape variant mc ma fl Hc Ha Hf)
    as (dil & -> & _ & Hd0 & Hd1).
  eexists. split; [done|]. cbn [wetMixCharge wetMixDilution].
  assert (Qmax 0.2 (1.0 - dil) == 1.0 - dil)%Q as -> by (apply Q.max_r; lra).
  split; lra.
Qed.

(** X11: with the rest of the row fixed, a larger (positive) flow never gives
    a larger dilution, nor a smaller charge. *)
Theorem wet_mix_dilution_antitone_in_flow (variant : variant_row) (x1 x2 : value)
  (f1 f2 : Q) :
  num x1 = Ok f1 -> num x2 = Ok f2 -> (0 < f1)%Q -> (f1 <= f2)%Q ->
  exists w1 w2,
    map_csp_to_wet_mix fpow (<["BrushFlow" := x1]> variant) = Ok w1
    /\ map_csp_to_wet_mix fpow (<["BrushFlow" := x2]> variant) = Ok w2
    /\ (wetMixDilution w2 <= wetMixDilution w1)%Q
    /\ (wetMixCharge w1 <= wetMixCharge w2)%Q.
Proof.
  intros H1 H2 Hpos Hle.
  destruct (wm_reads variant) as (mc & ma & fl & Hc & Ha & _).
  assert (forall x f, num x = Ok f -> (0 < f)%Q ->
            wm_mix_col (<["BrushFlow" := x]> variant) = Ok mc
            /\ wm_mix_alpha (<["BrushFlow" := x]> variant) = Ok ma
            /\ wm_flow (<["BrushFlow" := x]> variant) = Ok f
            /\ get (<["BrushFlow" := x]> variant) "BrushUseWaterColor" (VInt 0)
               = get variant "BrushUseWaterColor" (VInt 0)) as Hreads.
  { intros x f Hx Hf. unfold wm_mix_col, wm_mix_alpha.
    rewrite !get_insert_ne by done. split; [done|]. split; [done|]. split; [|done].
    apply (flow_reads_present _ x f); [apply lookup_insert_eq | done |].
    intros Hz. rewrite Hz in Hf. by apply Qlt_irrefl in Hf. }
  destruct (Hreads x1 f1 H1 Hpos) as (Hc1 & Ha1 & Hf1 & Hw1).
  destruct (Hreads x2 f2 H2 ltac:(eapply Qlt_le_trans; done)) as (Hc2 & Ha2 & Hf2 & Hw2).
  destruct (map_csp_to_wet_mix_shape _ mc ma f1 Hc1 Ha1 Hf1) as (d1 & -> & -> & _).
  destruct (map_csp_to_wet_mix_shape _ mc ma f2 Hc2 Ha2 Hf2) as (d2 & -> & -> & _).
  do 2 eexists. split; [done|]. split; [done|].
  cbn [wetMixDilution wetMixCharge]. rewrite Hw1, Hw2.
  set (c := negb _ && _). set (rhs1 := if c then _ else _).
  set (rhs2 := if c then _ else _).
  assert (rhs1 <= rhs2)%Q as Hd.
  { unfold rhs1, rhs2. destruct c; [apply Qle_refl|].
    apply Q.min_le_compat_l.
    pose proof (norm100_monotone f1 f2 Hle) as Hn.
    pose proof (norm100_range mc) as [Hc0 _].
    pose proof (fpow_nonneg (norm100 mc) 0.75 Hc0) as Hbase.
    apply Qplus_le_l. rewrite !(Qmult_comm (fpow (norm100 mc) 0.75 * 0.7)).
    apply Qmult_le_compat_r; [lra|].
    apply Qmult_le_0_compat; [done | done]. }
  split; [done|]. apply Q.max_le_compat_l. lra.
Qed.

(** X12: with the rest of the row fixed, a larger mix alpha never gives a
    smaller dilution nor a larger attack, and the attack stays within
    [0.5, 1]. *)
Theorem wet_mix_monotone_in_alpha (variant : variant_row) (x1 x2 : value) (a1 a2 : Q) :
  num x1 = Ok a1 -> num x2 = Ok a2 -> (a1 <= a2)%Q ->
  exists w1 w2,
    map_csp_to_wet_mix fpow (<["BrushMixAlpha" := x1]> variant) = Ok w1
    /\ map_csp_to_wet_mix fpow (<["BrushMixAlpha" := x2]> variant) = Ok w2
    /\ (wetMixDilution w1 <= wetMixDilution w2)%Q
    /\ (wetMixAttack w2 <= wetMixAttack w1)%Q
    /\ (0.5 <= wetMixAttack w2)%Q /\ (wetMixAttack w1 <= 1)%Q.
Proof.
  intros H1 H2 Hle.
  destruct (wm_reads variant) as (mc & ma & fl & Hc & _ & Hf).
  assert (forall x a, num x = Ok a ->
            exists a', (a' == a)%Q
            /\ wm_mix_col (<["BrushMixAlpha" := x]> variant) = Ok mc
            /\ wm_mix_alpha (<["BrushMixAlpha" := x]> variant) = Ok a'
            /\ wm_flow (<["BrushMixAlpha" := x]> variant) = Ok fl
            /\ get (<["BrushMixAlpha" := x]> variant) "BrushUseWaterColor" (VInt 0)
               = get variant "BrushUseWaterColor" (VInt 0)) as Hreads.
  { intros x a Hx. destruct (or_zero_num x a Hx) as (a' & Ha' & E).
    exists a'. split; [done|]. unfold wm_mix_col, wm_flow, wm_mix_alpha.
    rewrite (get_insert_ne _ _ "BrushMixColor"), (get_insert_ne _ _ "BrushFlow"),
      (get_insert_ne _ _ "BrushUseWaterColor"), get_insert_eq by done.
    done. }
  destruct (Hreads x1 a1 H1) as (a1' & E1 & Hc1 & Ha1 & Hf1 & Hw1).
  destruct (Hreads x2 a2 H2) as (a2' & E2 & Hc2 & Ha2 & Hf2 & Hw2).
  destruct (map_csp_to_wet_mix_shape _ mc a1' fl Hc1 Ha1 Hf1) as (d1 & -> & -> & _).
  destruct (map_csp_to_wet_mix_shape _ mc a2' fl Hc2 Ha2 Hf2) as (d2 & -> & -> & _).
  do 2 eexists. split; [done|]. split; [done|].
  cbn [wetMixDilution wetMixAttack]. rewrite Hw1, Hw2.
  assert (norm100 a1' <= norm100 a2')%Q as Hn
    by (apply norm100_monotone; by rewrite E1, E2).
  pose proof (norm100_range a1') as [Hl1 Hu1].
  pose proof (norm100_range a2') as [Hl2 Hu2].
  split; [|split; [lra | split; lra]].
  destruct (negb _ && _); [apply Qle_refl|].
  apply Q.min_le_compat_l. lra.
Qed.

End WetMixMore.

Lemma wet_mix_dilution_antitone_in_flow_witness :
  exists w1 w2,
    map_csp_to_wet_mix (fun x _ => approx_pow34 x) (<["BrushFlow" := VInt 20]> v_no_flow)
    = Ok w1
    /\ map_csp_to_wet_mix (fun x _ => approx_pow34 x) (<["BrushFlow" := VInt 90]> v_no_flow)
       = Ok w2
    /\ (wetMixDilution w2 <= wetMixDilution w1)%Q
    /\ (wetMixCharge w1 <= wetMixCharge w2)%Q.
Proof.
  apply (wet_mix_dilution_antitone_in_flow (fun x _ => approx_pow34 x)
           (fun x y => approx_pow34_nonneg x y) v_no_flow (VInt 20) (VInt 90)
           (inject_Z 20) (inject_Z 90)).
  - reflexivity.
  - reflexivity.
  - reflexivity.
  - discriminate.
Defined.

Lemma wet_mix_monotone_in_alpha_witness :
  exists w1 w2,
    map_csp_to_wet_mix (fun x _ => approx_pow34 x) (<["BrushMixAlpha" := VInt 10]> v_no_flow)
    = Ok w1
    /\ map_csp_to_wet_mix (fun x _ => approx_pow34 x) (<["BrushMixAlpha" := VInt 80]> v_no_flow)
       = Ok w2
    /\ (wetMixDilution w1 <= wetMixDilution w2)%Q
    /\ (wetMixAttack w2 <= wetMixAttack w1)%Q
    /\ (0.5 <= wetMixAttack w2)%Q /\ (wetMixAttack w1 <= 1)%Q.
Proof.
  apply (wet_mix_monotone_in_alpha (fun x _ => approx_pow34 x)
           (fun x y => approx_pow34_nonneg x y) v_no_flow (VInt 10) (VInt 80)
           (inject_Z 10) (inject_Z 80)).
  - reflexivity.
  - reflexivity.
  - discriminate.
Defined.

Lemma wet_mix_charge_complement_witness :
  exists w,
    map_csp_to_wet_mix (fun x _ => approx_pow34 x) v_no_flow = Ok w
    /\ (wetMixCharge w == 1 - wetMixDilution w)%Q
    /\ (0.3 <= wetMixCharge w)%Q.
Proof.
  apply (wet_mix_charge_complement (fun x _ => approx_pow34 x)
           (fun x y => approx_pow34_nonneg x y) v_no_flow).
Defined.

(** ** Reading the variant row *)

Lemma dict_of_lookup_from (pairs : list (string * value)) (m : variant_row)
  (k : string) (v : value) :
  NoDup (pairs.*1) ->
  (foldl (fun m kv => <[fst kv := snd kv]> m) m pairs) !! k = Some v
  <-> ((k, v) ∈ pairs \/ ((k ∉ pairs.*1) /\ m !! k = Some v)).
Proof.
  revert m. induction pairs as [|[k0 v0] pairs IH]; intros m Hnd.
  - cbn. split; [intros H; right; split; [apply not_elem_of_nil | done]|].
    intros [H|[_ H]]; [by apply elem_of_nil in H | done].
  - cbn [foldl fmap list_fmap] in *. apply NoDup_cons in Hnd as [Hk0 Hnd].
    rewrite (IH _ Hnd). cbn [fst snd]. rewrite elem_of_cons, not_elem_of_cons. split.
    + intros [H|[Hk H]]; [by left; right|].
      destruct (decide (k0 = k)) as [->|Hne].
      * rewrite lookup_insert_eq in H. injection H as ->. by left; left.
      * rewrite lookup_insert_ne in H by done. right. by repeat split.
    + intros [[[= -> ->]|H]|[[Hne Hk] H]].
      * right. split; [done|]. by rewrite lookup_insert_eq.
      * by left.
      * right. split; [done|]. by rewrite lookup_insert_ne.
Qed.

Lemma dict_of_keys (pairs : list (string * value)) (m : variant_row) (k : string) :
  k ∉ (pairs.*1) ->
  (foldl (fun m kv => <[fst kv := snd kv]> m) m pairs) !! k = m !! k.
Proof.
  revert m. induction pairs as [|[k0 v0] pairs IH]; intros m Hk; [done|].
  cbn [foldl fmap list_fmap fst snd] in *. apply not_elem_of_cons in Hk as [Hne Hk].
  rewrite (IH _ Hk). by rewrite lookup_insert_ne.
Qed.

(** X13: when the column names are pairwise distinct, the row that is read
    maps the i-th column name to the i-th value of the fetched row (to
    nothing if the row is shorter), and any other name to nothing. *)
Theorem read_variant_row_lookup (names : list string) (row : list value) :
  NoDup names ->
  exists variant,
    read_variant_row names (Some row) = Ok variant
    /\ (forall i k, names !! i = Some k -> variant !! k = row !! i)
    /\ (forall k, k ∉ names -> variant !! k = None).
Proof.
  intros Hnd. eexists. split; [reflexivity|].
  assert (forall k, k ∉ names -> dict_of (zip names row) !! k = None) as Hout.
  { intros k Hk. unfold dict_of. rewrite dict_of_keys; [done|].
    intros ([k' v'] & Hkv & Hin)%list_elem_of_fmap_1. cbn in Hkv. subst k'.
    apply Hk. by eapply elem_of_zip_l. }
  split; [|done]. intros i k Hi.
  assert (NoDup (zip names row).*1) as Hnd'.
  { clear Hi Hout. revert row. induction Hnd as [|n names Hn Hnd IH]; intros row.
    - constructor.
    - destruct row as [|v row]; [constructor|]. cbn. constructor; [|apply IH].
      intros ([k' v'] & Hkv & Hin)%list_elem_of_fmap_1. cbn in Hkv.
      subst k'. apply Hn. by eapply elem_of_zip_l. }
  destruct (row !! i) as [v|] eqn:Ev.
  - apply (dict_of_lookup_from _ ∅ k v Hnd'). left.
    apply list_elem_of_lookup. exists i. rewrite lookup_zip_with, Hi. cbn. by rewrite Ev.
  - apply eq_None_not_Some. intros [v Hv].
    apply (dict_of_lookup_from _ ∅ k v Hnd') in Hv as [Hin|[_ Hv]]; [|done].
    apply list_elem_of_lookup in Hin as [j Hj]. rewrite lookup_zip_with in Hj.
    destruct (names !! j) as [k'|] eqn:Ej; [|done]. cbn in Hj.
    destruct (row !! j) as [v'|] eqn:Evj; [|done]. cbn in Hj. injection Hj as -> ->.
    assert (i = j) as -> by exact (NoDup_lookup names i j k Hnd Hi Ej). congruence.
Qed.

Lemma read_variant_row_lookup_witness :
  exists variant,
    read_variant_row ["BrushSize"; "BrushInterval"] (Some [VInt 40; VReal 4.5]) = Ok variant
    /\ (forall i k, ["BrushSize"; "BrushInterval"] !! i = Some k ->
                    variant !! k = [VInt 40; VReal 4.5] !! i)
    /\ (forall k, k ∉ ["BrushSize"; "BrushInterval"] -> variant !! k = None).
Proof.
  apply (read_variant_row_lookup ["BrushSize"; "BrushInterval"] [VInt 40; VReal 4.5]).
  apply NoDup_cons. split; [|apply NoDup_singleton].
  intros H%list_elem_of_singleton. discriminate.
Defined.

(** ** When the locals of the patcher can be computed *)

Lemma num_ok_iff (x : value) : (exists q, num x = Ok q) <-> x <> VNone.
Proof.
  destruct x; cbn; split; try done; try (intros _; by eexists). by intros [q ?].
Qed.

Lemma get_not_none (variant : variant_row) (k : string) (d : value) :
  d <> VNone -> (get variant k d <> VNone <-> variant !! k <> Some VNone).
Proof.
  intros Hd. unfold get. destruct (variant !! k) as [x|]; cbn; [|done].
  split; congruence.
Qed.

Lemma read_locals_flow_step (variant : variant_row) (fl : Q) :
  num (get variant "BrushFlow" (VInt 1000)) = Ok fl ->
  exists flow_val,
    (m ← min_ (VInt 1000) (get variant "BrushFlow" (VInt 1000)); max_ (VInt 0) m)
    = Ok flow_val.
Proof.
  intros Hfl. unfold min_, max_, lt_. cbn [num]. rewrite Hfl. res_simpl.
  destruct (Qltb fl (inject_Z 1000)); rewrite ?Hfl; cbn [num]; res_simpl; by eexists.
Qed.

(** X14: the locals can be computed exactly when [BrushRevision] is there
    and not null and neither [BrushFlow] nor [BrushRotationRandomScale] is
    null; otherwise a [TypeError] is raised, and nothing else ever is.  The
    size limits and the opacity that are computed do not depend on the row,
    and the jitter is the revision divided by 100 and doubled. *)
Theorem read_locals_ok_iff (fpow : Q -> Q -> Q) (variant : variant_row) :
  ((exists L, read_locals fpow variant = Ok L)
   <-> variant !! "BrushFlow" <> Some VNone
       /\ variant !! "BrushRotationRandomScale" <> Some VNone
       /\ exists x, variant !! "BrushRevision" = Some x /\ x <> VNone)
  /\ (forall e, read_locals fpow variant = Raise e -> e = TypeError)
  /\ (forall L, read_locals fpow variant = Ok L ->
        min_px L = 0.02%Q /\ max_px L = 3.0%Q /\ opacity L = 1.0%Q
        /\ csp_to_plotSpacing variant = Ok (spacing L)
        /\ exists x r, variant !! "BrushRevision" = Some x /\ num x = Ok r
                       /\ jitter_val L = (r / inject_Z 100 * 2)%Q).
Proof.
  unfold read_locals.
  destruct (spacing_in_range variant) as (q & Hq & _). rewrite Hq. res_simpl.
  destruct (rf_reads variant) as (mc & ma & fl' & Hc & Ha & Hf).
  rewrite (map_csp_rendering_flags_shape variant mc ma fl' Hc Ha Hf).
  assert (exists w, map_csp_to_wet_mix fpow variant = Ok w) as [w Hw].
  { destruct (wm_reads variant) as (c & a & f & Hc' & Ha' & Hf').
    unfold map_csp_to_wet_mix. rewrite Hc', Ha', Hf'. by eexists. }
  rewrite Hw.
  rewrite <- (get_not_none variant "BrushFlow" (VInt 1000)) by done.
  rewrite <- (get_not_none variant "BrushRotationRandomScale" (VInt 0)) by done.
  assert ((exists x, variant !! "BrushRevision" = Some x /\ x <> VNone)
          <-> get_ variant "BrushRevision" <> VNone) as ->.
  { unfold get_, get. destruct (variant !! "BrushRevision") as [x|]; cbn.
    - split; [by intros (? & [= <-] & ?) | by eexists].
    - split; [by intros (? & ? & _) | done]. }
  rewrite <- !num_ok_iff.
  destruct (num (get variant "BrushFlow" (VInt 1000))) as [fl|e1] eqn:Efl.
  2:{ unfold min_, lt_. cbn [num]. rewrite Efl. res_simpl.
      pose proof (num_raise _ _ Efl) as ->. split; [|split].
      - split; [by intros [L ?] | by intros [[? ?] _]].
      - by intros e [= <-].
      - done. }
  destruct (read_locals_flow_step variant fl Efl) as [flow_val ->]. res_simpl.
  unfold div_. cbn [num].
  destruct (num (get variant "BrushRotationRandomScale" (VInt 0))) as [sc|e2] eqn:Esc.
  2:{ res_simpl. pose proof (num_raise _ _ Esc) as ->. split; [|split].
      - split; [by intros [L ?] | by intros (_ & [? ?] & _)].
      - by intros e [= <-].
      - done. }
  res_simpl. change (Qeq_bool (inject_Z 100) 0) with false. res_simpl.
  destruct (num (get_ variant "BrushRevision")) as [r|e3] eqn:Er.
  2:{ res_simpl. pose proof (num_raise _ _ Er) as ->. split; [|split].
      - split; [by intros [L ?] | by intros (_ & _ & [? ?])].
      - by intros e [= <-].
      - done. }
  res_simpl. split; [|split].
  - split; [intros _; repeat split; by eexists | intros _; by eexists].
  - done.
  - intros L [= <-]. cbn. repeat split.
    unfold get_, get in Er. destruct (variant !! "BrushRevision") as [x|]; [|done].
    by exists x, r.
Qed.

(** X15: the patcher starts by reading the variant row.  When the table is
    empty, or has no column [BrushRevision], it raises a [TypeError] before
    the walk begins, whatever the template, the name and the time. *)
Theorem finalise_from_store_needs_revision (fpow : Q -> Q -> Q) (fuel : nat)
  (objs : list slot) (new_name : string) (now : Q) (names : list string)
  (row : option (list value)) :
  row = None \/ "BrushRevision" ∉ names ->
  finalise_from_store fpow fuel objs new_name now names row = Some (Raise TypeError).
Proof.
  intros [->|Hk]; [done|]. unfold finalise_from_store.
  destruct row as [row|]; [|done]. cbn [read_variant_row].
  unfold finalise_seed_brush. rewrite read_locals_needs_revision; [done|].
  left. unfold dict_of. rewrite dict_of_keys; [done|].
  intros ([k' v'] & Hkv & Hin)%list_elem_of_fmap_1. cbn in Hkv. subst k'.
  apply Hk. by eapply elem_of_zip_l.
Qed.

Lemma finalise_from_store_needs_revision_witness :
  finalise_from_store (fun x _ => approx_pow34 x) 4 g_two_spacings "Stamp 1" 17
    ["BrushSize"; "BrushInterval"] (Some [VInt 40; VInt 4])
  = Some (Raise TypeError).
Proof.
  apply finalise_from_store_needs_revision. right.
  apply not_elem_of_cons. split; [done|].
  apply not_elem_of_cons. split; [done|]. apply not_elem_of_nil.
Defined.

(** ** The assignments of the walk on one record *)

Lemma set_if_in_put (k : string) (v : pval) (obj : record) :
  set_if_in k v obj = put true k k v obj.
Proof. reflexivity. Qed.

Lemma set_if_in_res_try (k : string) (v : res pval) (obj : record) :
  set_if_in_res k v obj = try_ true k k v obj.
Proof. reflexivity. Qed.

Lemma scatter_fragment (obj : record) (three : bool) (x : Q) :
  (if has obj (KStr "shapeRandomise")
   then if three then <[KStr "shapeScatter" := PReal x]> obj
        else <[KStr "shapeScatter" := PReal 0]> obj
   else obj)
  = put true "shapeRandomise" "shapeScatter" (PReal (if three then x else 0)) obj.
Proof. unfold put. by destruct (has obj _), three. Qed.

Lemma flip_fragment (obj : record) (three : bool) :
  (if has obj (KStr "shapeFlipXJitter") && three
   then <[KStr "shapeFlipXJitter" := PBool true]> obj
   else if has obj (KStr "shapeFlipXJitter") && negb three
        then <[KStr "shapeFlipXJitter" := PBool false]> obj
        else obj)
  = put true "shapeFlipXJitter" "shapeFlipXJitter" (PBool three) obj.
Proof. unfold put. by destruct (has obj _), three. Qed.

Lemma taper_fragment (taper : bool) (v1 v2 : res pval) (obj : record) :
  (if taper
   then obj ← set_if_in_res "pencilTaperStartLength" v1 obj;
        set_if_in_res "pencilTaperEndLength" v2 obj
   else Ok obj)
  = (obj ← try_ taper "pencilTaperStartLength" "pencilTaperStartLength" v1 obj;
     try_ taper "pencilTaperEndLength" "pencilTaperEndLength" v2 obj).
Proof. by destruct taper. Qed.

Lemma angle_fragment (angle : bool) (obj : record) :
  (if angle
   then set_if_in "shapeOrientation" (PInt 1)
          (set_if_in "shapeRollMode" (PInt 1)
             (set_if_in "shapeRoll" (PBool true)
                (set_if_in "shapeAzimuth" (PBool true) obj)))
   else obj)
  = put angle "shapeOrientation" "shapeOrientation" (PInt 1)
      (put angle "shapeRollMode" "shapeRollMode" (PInt 1)
         (put angle "shapeRoll" "shapeRoll" (PBool true)
            (put angle "shapeAzimuth" "shapeAzimuth" (PBool true) obj))).
Proof. by destruct angle. Qed.

Lemma res_bind_ext {A B} (m : res A) (f g : A -> res B) :
  (forall x, f x = g x) -> m ≫= f = m ≫= g.
Proof. intros H. destruct m; cbn; [apply H | done]. Qed.

Lemma res_bind_assoc {A B C} (m : res A) (f : A -> res B) (g : B -> res C) :
  (m ≫= f) ≫= g = m ≫= (fun x => f x ≫= g).
Proof. by destruct m. Qed.

Lemma patch_fields_run (L : locals) (obj : record) :
  patch_fields L obj = run (actions L) obj.
Proof.
  unfold patch_fields, actions. cbv zeta.
  cbn [run step]. res_simpl.
  rewrite !set_if_in_put, set_if_in_res_try.
  apply res_bind_ext. intros o.
  rewrite scatter_fragment, flip_fragment, taper_fragment, res_bind_assoc.
  rewrite !set_if_in_put.
  apply res_bind_ext. intros o1. apply res_bind_ext. intros o2.
  rewrite angle_fragment, !set_if_in_put. reflexivity.
Qed.

Lemma step_eq (a : action) (obj : record) :
  step a obj
  = if fires a obj then v ← a_val a; Ok (<[KStr (a_key a) := v]> obj) else Ok obj.
Proof.
  destruct a as [on g k v|on g k v]; unfold step, put, try_, fires; cbn;
    by destruct (on && has obj (KStr g)).
Qed.

Lemma step_inv (a : action) (obj obj' : record) :
  step a obj = Ok obj' ->
  (fires a obj = false /\ obj' = obj)
  \/ (fires a obj = true
      /\ exists v, a_val a = Ok v /\ obj' = <[KStr (a_key a) := v]> obj).
Proof.
  rewrite step_eq. destruct (fires a obj).
  - destruct (a_val a) as [v|e]; cbn; [|done]. intros [= <-]. right. eauto.
  - intros [= <-]. by left.
Qed.

Lemma has_true (obj : record) (k : key) : has obj k = true <-> is_Some (obj !! k).
Proof. unfold has. apply bool_decide_eq_true. Qed.

Lemma run_cons_inv (a : action) (acts : list action) (obj obj' : record) :
  run (a :: acts) obj = Ok obj' ->
  exists obj1, step a obj = Ok obj1 /\ run acts obj1 = Ok obj'.
Proof.
  cbn [run]. destruct (step a obj) as [obj1|e]; cbn; [|done]. intros H. by exists obj1.
Qed.

(** a key stays as it is unless some assignment that is switched on
    targets it *)
Lemma run_untouched (acts : list action) (obj obj' : record) (k : key) :
  run acts obj = Ok obj' ->
  (forall a, a ∈ acts -> k = KStr (a_key a) -> a_on a = false) ->
  obj' !! k = obj !! k.
Proof.
  revert obj. induction acts as [|a acts IH]; intros obj H Hk.
  - by injection H as <-.
  - apply run_cons_inv in H as (obj1 & Hs & Hr).
    rewrite (IH _ Hr) by (intros; apply Hk; [by apply elem_of_cons; right | done]).
    apply step_inv in Hs as [[_ ->]|(Hf & v & _ & ->)]; [done|].
    apply lookup_insert_ne. intros Heq. symmetry in Heq.
    unfold fires in Hf.
    rewrite (Hk a) in Hf; [done|by apply elem_of_cons; left|done].
Qed.

(** the presence of a key that no assignment can add does not change *)
Lemma run_presence (added : list string) (acts : list action) (obj obj' : record)
  (g : string) :
  run acts obj = Ok obj' ->
  (forall a, a ∈ acts -> a_guard a = a_key a \/ a_key a ∈ added) ->
  g ∉ added ->
  has obj' (KStr g) = has obj (KStr g).
Proof.
  revert obj. induction acts as [|a acts IH]; intros obj H H1 Hg.
  - by injection H as <-.
  - apply run_cons_inv in H as (obj1 & Hs & Hr).
    rewrite (IH _ Hr) by (try done; intros; apply H1; by apply elem_of_cons; right).
    apply step_inv in Hs as [[_ ->]|(Hf & v & _ & ->)]; [done|].
    destruct (decide (a_key a = g)) as [Hkg|Hne].
    + destruct (H1 a) as [Hga|Hin]; [by apply elem_of_cons; left| |by subst].
      unfold fires in Hf. apply andb_true_iff in Hf as [_ Hf].
      rewrite Hga, Hkg in Hf. rewrite Hf. apply has_true.
      rewrite Hkg, lookup_insert_eq. by eexists.
    + unfold has. by rewrite lookup_insert_ne by congruence.
Qed.

(** every assignment that fires on the record leaves its value in the result *)
Lemma run_values (added : list string) (acts : list action) (obj obj' : record) :
  run acts obj = Ok obj' ->
  NoDup (a_key <$> acts) ->
  (forall a, a ∈ acts -> a_guard a = a_key a \/ a_key a ∈ added) ->
  (forall a, a ∈ acts -> a_guard a ∉ added) ->
  forall a, a ∈ acts -> fires a obj = true ->
    exists v, a_val a = Ok v /\ obj' !! KStr (a_key a) = Some v.
Proof.
  revert obj. induction acts as [|a0 acts IH]; intros obj H Hnd H1 H2 a Ha Hf.
  - by apply elem_of_nil in Ha.
  - apply run_cons_inv in H as (obj1 & Hs & Hr).
    cbn [fmap list_fmap] in Hnd. apply NoDup_cons in Hnd as [Hk0 Hnd].
    apply elem_of_cons in Ha as [->|Ha].
    + apply step_inv in Hs as [[Hf' _]|(_ & v & Hv & ->)]; [congruence|].
      exists v. split; [done|].
      rewrite (run_untouched _ _ _ (KStr (a_key a0)) Hr).
      * apply lookup_insert_eq.
      * intros a' Ha' [= Heq]. destruct Hk0. rewrite Heq.
        by apply list_elem_of_fmap_2.
    + apply (IH obj1); try done.
      * intros; apply H1; by apply elem_of_cons; right.
      * intros; apply H2; by apply elem_of_cons; right.
      * unfold fires in *. apply andb_true_iff in Hf as [Hon Hg].
        rewrite Hon. cbn.
        rewrite (run_presence added [a0] obj obj1 (a_guard a)); [done| | |].
        -- cbn [run]. by rewrite Hs.
        -- intros a' ->%list_elem_of_singleton. apply H1. by apply elem_of_cons; left.
        -- apply H2. by apply elem_of_cons; right.
Qed.

Lemma run_fixed (acts : list action) (obj : record) :
  (forall a, a ∈ acts -> step a obj = Ok obj) -> run acts obj = Ok obj.
Proof.
  induction acts as [|a acts IH]; intros H; [done|].
  cbn [run]. rewrite H by (by apply elem_of_cons; left). cbn.
  apply IH. intros; apply H; by apply elem_of_cons; right.
Qed.

Lemma run_idempotent (added : list string) (acts : list action) (obj obj' : record) :
  run acts obj = Ok obj' ->
  NoDup (a_key <$> acts) ->
  (forall a, a ∈ acts -> a_guard a = a_key a \/ a_key a ∈ added) ->
  (forall a, a ∈ acts -> a_guard a ∉ added) ->
  run acts obj' = Ok obj'.
Proof.
  intros H Hnd H1 H2. apply run_fixed. intros a Ha. rewrite step_eq.
  destruct (fires a obj') eqn:Hf; [|done].
  assert (fires a obj = true) as Hf0.
  { unfold fires in *. apply andb_true_iff in Hf as [Hon Hg]. rewrite Hon. cbn.
    by rewrite <- (run_presence added acts obj obj' (a_guard a) H H1 (H2 a Ha)). }
  destruct (run_values added acts obj obj' H Hnd H1 H2 a Ha Hf0) as (v & -> & Hv).
  cbn. by rewrite insert_id.
Qed.

Lemma actions_keys (L : locals) : a_key <$> actions L = patched_fields.
Proof. reflexivity. Qed.

Lemma patched_fields_NoDup : NoDup patched_fields.
Proof. apply (bool_decide_unpack _). vm_compute. exact I. Qed.

Lemma actions_guards (L : locals) :
  (forall a, a ∈ actions L -> a_guard a = a_key a \/ a_key a ∈ ["shapeScatter"])
  /\ (forall a, a ∈ actions L -> a_guard a ∉ ["shapeScatter"]).
Proof.
  split; apply Forall_forall; unfold actions; cbv zeta;
    repeat (constructor;
            [cbn; first [by left | by right; apply list_elem_of_singleton
                        | by intros ?%list_elem_of_singleton]|]);
    constructor.
Qed.

Lemma run_untouched_unfired (added : list string) (acts : list action)
  (obj obj' : record) (k : key) :
  run acts obj = Ok obj' ->
  (forall a, a ∈ acts -> a_guard a = a_key a \/ a_key a ∈ added) ->
  (forall a, a ∈ acts -> k = KStr (a_key a) ->
     a_on a = false \/ ((a_guard a ∉ added) /\ has obj (KStr (a_guard a)) = false)) ->
  obj' !! k = obj !! k.
Proof.
  revert obj. induction acts as [|a acts IH]; intros obj H H1 Hk.
  - by injection H as <-.
  - apply run_cons_inv in H as (obj1 & Hs & Hr).
    assert (obj1 !! k = obj !! k) as <-.
    { apply step_inv in Hs as [[_ ->]|(Hf & v & _ & ->)]; [done|].
      apply lookup_insert_ne. intros Heq. symmetry in Heq.
      unfold fires in Hf. apply andb_true_iff in Hf as [Hon Hg].
      destruct (Hk a) as [Hoff|[_ Hno]]; [by apply elem_of_cons; left|done| |];
        congruence. }
    apply (IH _ Hr); [intros; apply H1; by apply elem_of_cons; right|].
    intros a' Ha' Hka'.
    destruct (Hk a' ltac:(by apply elem_of_cons; right) Hka') as [Hoff|[Hadd Hno]];
      [by left|]. right. split; [done|].
    rewrite (run_presence added [a] obj obj1 (a_guard a')); [done| | |done].
    + cbn [run]. by rewrite Hs.
    + intros a'' ->%list_elem_of_singleton. apply H1. by apply elem_of_cons; left.
Qed.

Lemma run_keeps_present (acts : list action) (obj obj' : record) (k : key) :
  run acts obj = Ok obj' -> is_Some (obj !! k) -> is_Some (obj' !! k).
Proof.
  revert obj. induction acts as [|a acts IH]; intros obj H Hk.
  - by injection H as <-.
  - apply run_cons_inv in H as (obj1 & Hs & Hr). apply (IH _ Hr).
    apply step_inv in Hs as [[_ ->]|(_ & v & _ & ->)]; [done|].
    destruct (decide (KStr (a_key a) = k)) as [<-|Hne].
    + rewrite lookup_insert_eq. by eexists.
    + by rewrite lookup_insert_ne.
Qed.

(** X16: the assignments on a record leave every key alone that is not one
    of the 23 field names they know, in particular every [bytes] key, the
    name and the creation date; the four angle fields are left alone unless
    the brush is angle sensitive, and the two taper lengths unless the in-
    or the out-taper is used. *)
Theorem patch_fields_untouched (L : locals) (obj obj' : record) :
  patch_fields L obj = Ok obj' ->
  (forall k, k ∉ (KStr <$> patched_fields) -> obj' !! k = obj !! k)
  /\ (angle_sensitive L = false ->
      forall s, s ∈ ["shapeAzimuth"; "shapeRoll"; "shapeRollMode"; "shapeOrientation"] ->
                obj' !! KStr s = obj !! KStr s)
  /\ (truthy (or_ (BrushUseIn L) (BrushUseOut L)) = false ->
      forall s, s ∈ ["pencilTaperStartLength"; "pencilTaperEndLength"] ->
                obj' !! KStr s = obj !! KStr s).
Proof.
  rewrite patch_fields_run. intros H. split; [|split].
  - intros k Hk. apply (run_untouched _ _ _ k H). intros a Ha ->.
    destruct Hk. apply list_elem_of_fmap_2. rewrite <- (actions_keys L).
    by apply list_elem_of_fmap_2.
  - intros Hangle s Hs. apply (run_untouched _ _ _ _ H).
    apply (proj1 (Forall_forall (fun a => KStr s = KStr (a_key a) -> a_on a = false) _)).
    unfold actions. cbv zeta. rewrite Hangle.
    repeat (apply elem_of_cons in Hs as [->|Hs];
            [repeat (constructor; [cbn; intros Heq; first [discriminate Heq | done]|]);
             constructor|]).
    by apply elem_of_nil in Hs.
  - intros Htaper s Hs. apply (run_untouched _ _ _ _ H).
    apply (proj1 (Forall_forall (fun a => KStr s = KStr (a_key a) -> a_on a = false) _)).
    unfold actions. cbv zeta. rewrite Htaper.
    repeat (apply elem_of_cons in Hs as [->|Hs];
            [repeat (constructor; [cbn; intros Heq; first [discriminate Heq | done]|]);
             constructor|]).
    by apply elem_of_nil in Hs.
Qed.

Lemma rec_sample_patch : patch_fields L_plain rec_sample = Ok rec_sample_patched.
Proof. vm_cast_no_check (@eq_refl _ (Ok rec_sample_patched)). Qed.

Lemma patch_fields_untouched_witness :
  (forall k, k ∉ (KStr <$> patched_fields) -> rec_sample_patched !! k = rec_sample !! k)
  /\ (angle_sensitive L_plain = false ->
      forall s, s ∈ ["shapeAzimuth"; "shapeRoll"; "shapeRollMode"; "shapeOrientation"] ->
                rec_sample_patched !! KStr s = rec_sample !! KStr s)
  /\ (truthy (or_ (BrushUseIn L_plain) (BrushUseOut L_plain)) = false ->
      forall s, s ∈ ["pencilTaperStartLength"; "pencilTaperEndLength"] ->
                rec_sample_patched !! KStr s = rec_sample !! KStr s).
Proof.
  apply (patch_fields_untouched L_plain rec_sample rec_sample_patched).
  exact rec_sample_patch.
Defined.

(** X17: the assignments never remove a key, and the only key they can add
    is [shapeScatter], which they add exactly when the record has a
    [shapeRandomise] field. *)
Theorem patch_fields_keys (L : locals) (obj obj' : record) :
  patch_fields L obj = Ok obj' ->
  dom obj' = dom obj ∪ (if has obj (KStr "shapeRandomise")
                         then {[ KStr "shapeScatter" ]} else ∅).
Proof.
  rewrite patch_fields_run. intros H.
  destruct (actions_guards L) as [H1 H2].
  apply set_eq. intros k. rewrite elem_of_union, !elem_of_dom.
  destruct (decide (k = KStr "shapeScatter")) as [->|Hne].
  - destruct (has obj (KStr "shapeRandomise")) eqn:Hr.
    + split; [intros _; right; by apply elem_of_singleton|]. intros _.
      destruct (run_values _ _ _ _ H ltac:(rewrite actions_keys; apply patched_fields_NoDup)
                  H1 H2 (Put true "shapeRandomise" "shapeScatter"
                           (PReal (if eq_ (BrushPatternOrderType L) (VInt 3)
                                   then BrushRotationRandomScale L else 0))))
        as (v & _ & Hv).
      * unfold actions. cbv zeta. do 6 apply list_elem_of_further. apply list_elem_of_here.
      * unfold fires. cbn. done.
      * by eexists.
    + rewrite (run_untouched_unfired _ _ _ _ _ H H1).
      * split; [by left|]. intros [?|Hin]; [done | by apply elem_of_empty in Hin].
      * apply (proj1 (Forall_forall
                        (fun a => KStr "shapeScatter" = KStr (a_key a) ->
                                  a_on a = false
                                  \/ ((a_guard a ∉ ["shapeScatter"])
                                      /\ has obj (KStr (a_guard a)) = false)) _)).
        unfold actions. cbv zeta.
        repeat (constructor;
                [cbn; intros Heq; first [discriminate Heq | right; split;
                   [by intros ?%list_elem_of_singleton | done]]|]).
        constructor.
  - assert (is_Some (obj' !! k) <-> is_Some (obj !! k)) as ->.
    { destruct k as [g|g].
      - rewrite <- !has_true.
        rewrite (run_presence _ _ _ _ g H H1); [done|].
        intros ->%list_elem_of_singleton. done.
      - rewrite (run_untouched _ _ _ _ H); [done|]. by intros a _ [=]. }
    split; [by left|]. intros [?|Hin]; [done|].
    destruct (has obj (KStr "shapeRandomise")).
    + by apply elem_of_singleton in Hin.
    + by apply elem_of_empty in Hin.
Qed.

Lemma patch_fields_keys_witness :
  dom rec_sample_patched
  = dom rec_sample ∪ (if has rec_sample (KStr "shapeRandomise")
                      then {[ KStr "shapeScatter" ]} else ∅).
Proof.
  apply (patch_fields_keys L_plain rec_sample rec_sample_patched).
  exact rec_sample_patch.
Defined.

(** X18: running the assignments again on their own result changes nothing. *)
Theorem patch_fields_idempotent (L : locals) (obj obj' : record) :
  patch_fields L obj = Ok obj' -> patch_fields L obj' = Ok obj'.
Proof.
  rewrite !patch_fields_run. intros H.
  destruct (actions_guards L) as [H1 H2].
  apply (run_idempotent ["shapeScatter"] _ obj); try done.
  rewrite actions_keys. apply patched_fields_NoDup.
Qed.

Lemma patch_fields_idempotent_witness :
  patch_fields L_plain rec_sample_patched = Ok rec_sample_patched.
Proof.
  apply (patch_fields_idempotent L_plain rec_sample rec_sample_patched).
  exact rec_sample_patch.
Defined.

Lemma field_table_actions (L : locals) :
  Forall (fun kv => Put true (fst kv) (fst kv) (snd kv) ∈ actions L) (field_table L).
Proof.
  unfold field_table, actions. cbv zeta.
  repeat (constructor;
          [cbn [fst snd];
           repeat first [apply list_elem_of_here | apply list_elem_of_further]|]).
  constructor.
Qed.

(** X19: each of the fifteen fields of the table, when the record has it,
    ends up with the value the table gives, which depends on the locals
    only: two records that carry the same field get the same value.  A
    record with a [shapeRandomise] field also ends up with a scatter, the
    random rotation scale when the pattern order type is 3 and 0 otherwise. *)
Theorem patch_fields_table (L : locals) (obj obj' : record) :
  patch_fields L obj = Ok obj' ->
  (forall k v, (k, v) ∈ field_table L -> is_Some (obj !! KStr k) ->
               obj' !! KStr k = Some v)
  /\ (is_Some (obj !! KStr "shapeRandomise") ->
      obj' !! KStr "shapeScatter"
      = Some (PReal (if eq_ (BrushPatternOrderType L) (VInt 3)
                     then BrushRotationRandomScale L else 0))).
Proof.
  rewrite patch_fields_run. intros H.
  destruct (actions_guards L) as [H1 H2].
  assert (NoDup (a_key <$> actions L)) as Hnd
    by (rewrite actions_keys; apply patched_fields_NoDup).
  split.
  - intros k v Hkv Hk.
    pose proof (proj1 (Forall_forall _ _) (field_table_actions L) _ Hkv) as Hin.
    destruct (run_values _ _ _ _ H Hnd H1 H2 _ Hin) as (v' & [= <-] & Hv); [|done].
    unfold fires. cbn. by apply has_true.
  - intros Hr.
    destruct (run_values _ _ _ _ H Hnd H1 H2
                (Put true "shapeRandomise" "shapeScatter"
                   (PReal (if eq_ (BrushPatternOrderType L) (VInt 3)
                           then BrushRotationRandomScale L else 0))))
      as (v & [= <-] & Hv); [| |done].
    + unfold actions. cbv zeta. do 6 apply list_elem_of_further. apply list_elem_of_here.
    + unfold fires. cbn. by apply has_true.
Qed.

Lemma patch_fields_table_witness :
  (forall k v, (k, v) ∈ field_table L_plain -> is_Some (rec_sample !! KStr k) ->
               rec_sample_patched !! KStr k = Some v)
  /\ (is_Some (rec_sample !! KStr "shapeRandomise") ->
      rec_sample_patched !! KStr "shapeScatter"
      = Some (PReal (if eq_ (BrushPatternOrderType L_plain) (VInt 3)
                     then BrushRotationRandomScale L_plain else 0))).
Proof.
  apply (patch_fields_table L_plain rec_sample rec_sample_patched).
  exact rec_sample_patch.
Defined.

(** ** The walk as a whole *)

Lemma run_raise (acts : list action) (obj : record) (e : exn) :
  run acts obj = Raise e -> exists a, a ∈ acts /\ a_val a = Raise e.
Proof.
  revert obj. induction acts as [|a acts IH]; intros obj H; [done|].
  cbn [run] in H. destruct (step a obj) as [obj1|e'] eqn:Hs; cbn in H.
  - destruct (IH _ H) as (a' & Ha' & Hv). exists a'. split; [|done].
    by apply elem_of_cons; right.
  - injection H as ->. exists a. split; [by apply elem_of_cons; left|].
    rewrite step_eq in Hs. destruct (fires a obj); [|done].
    destruct (a_val a); cbn in Hs; congruence.
Qed.

Lemma patch_fields_raise (L : locals) (obj : record) (e : exn) :
  patch_fields L obj = Raise e -> e = TypeError.
Proof.
  rewrite patch_fields_run. intros (a & Ha & Hv)%run_raise. revert a Ha Hv.
  apply (proj1 (Forall_forall (fun a => a_val a = Raise e -> e = TypeError) _)).
  unfold actions. cbv zeta.
  assert (forall x (f : Q -> Q),
            (r ← div_ x (VInt 100); Ok (PReal (f r))) = Raise e -> e = TypeError) as Hdiv.
  { intros x f. unfold div_. cbn [num]. destruct (num x) as [q|e'] eqn:E; cbn; [done|].
    intros [= <-]. by eapply num_raise. }
  repeat (constructor; [cbn [a_val]; try done|]); [| | |constructor].
  - unfold float. destruct (num (BrushRotation L)) as [q|e'] eqn:E; cbn; [done|].
    intros [= <-]. by eapply num_raise.
  - apply (Hdiv _ (fun r => r / 4)%Q).
  - apply (Hdiv _ (fun r => r / 2)%Q).
Qed.

Lemma index_lt (len : nat) (x : pval) (j : nat) : index_ len x = Ok j -> (j < len)%nat.
Proof.
  assert (forall z,
            (if (0 <=? z)%Z && (z <? Z.of_nat len)%Z then Ok (Z.to_nat z)
             else if (z <? 0)%Z && (0 <=? Z.of_nat len + z)%Z
                  then Ok (Z.to_nat (Z.of_nat len + z))
                  else Raise IndexError) = Ok j -> (j < len)%nat) as Hint.
  { intros z. destruct (Z.leb_spec 0 z), (Z.ltb_spec z (Z.of_nat len)),
      (Z.ltb_spec z 0), (Z.leb_spec 0 (Z.of_nat len + z)); cbn;
      intros [=]; subst; lia. }
  destruct x as [|n|b|z|q|s]; cbv beta iota zeta delta [index_]; try done.
  - destruct (Nat.ltb_spec n len); [by intros [= <-] | done].
  - apply Hint.
  - apply Hint.
Qed.

Lemma index_raise (len : nat) (x : pval) (e : exn) :
  index_ len x = Raise e -> e = TypeError \/ e = IndexError.
Proof.
  destruct x as [|n|b|z|q|s]; cbv beta iota zeta delta [index_];
    try (intros [= <-]; by left).
  - destruct (n <? len)%nat; [done | intros [= <-]; by right].
  - destruct (_ && _); [done|]. destruct (_ && _); [done | intros [= <-]; by right].
  - destruct (_ && _); [done|]. destruct (_ && _); [done | intros [= <-]; by right].
Qed.

Lemma patch_slot_result (fuel : nat) (L : locals) (now : Q) (new_name : string)
  (i : nat) (obj : record) (objs : list slot) (stamped renamed : bool)
  (r : res (list slot * bool * bool)) :
  patch_slot fuel L now new_name i obj objs stamped renamed = Some r ->
  match r with
  | Ok (objs', _, _) => length objs' = length objs
  | Raise e => e = TypeError \/ e = IndexError
  end.
Proof.
  unfold patch_slot.
  destruct (stamp_step fuel now i obj objs stamped) as [[[[obj1 objs1] st1]|e]|] eqn:Es;
    [| |done].
  - assert (length objs1 = length objs) as Hlen1.
    { unfold stamp_step in Es. destruct (negb stamped && _); [|by injection Es as <- <- <-].
      destruct (resolve objs fuel _) as [[[[j|] [cd|v]]|e]|];
        try (by injection Es as <- <- <-); try done.
      destruct (has cd _ || has cd _); [|by injection Es as <- <- <-].
      destruct (decide (j = i)); injection Es as <- <- <-; [done|].
      by rewrite length_insert. }
    intros [= <-]. unfold rename_step.
    destruct (negb renamed && _).
    + destruct (index_ (length objs1) _) as [j|e] eqn:Ei; res_simpl.
      * destruct (patch_fields L obj1) as [obj2|e] eqn:Ep; res_simpl.
        -- destruct (bool_decide _); by rewrite ?length_insert.
        -- left. by eapply patch_fields_raise.
      * by eapply index_raise.
    + res_simpl. destruct (patch_fields L obj1) as [obj2|e] eqn:Ep; res_simpl.
      * by rewrite length_insert.
      * left. by eapply patch_fields_raise.
  - intros [= <-]. right. unfold stamp_step in Es.
    destruct (negb stamped && _); [|done].
    destruct (resolve objs fuel _) as [[[[j|] [cd|v]]|e']|] eqn:Er; try done.
    + destruct (has cd _ || has cd _); [|done]. by destruct (decide (j = i)).
    + injection Es as ->.
      destruct (resolve_from_result _ _ _ _ _ Er) as [[= ->]|(? & ? & ? & _)]; done.
Qed.

Lemma walk_result (fuel : nat) (L : locals) (now : Q) (new_name : string)
  (todo i : nat) (objs : list slot) (stamped renamed : bool) (r : res (list slot)) :
  walk fuel L now new_name todo i objs stamped renamed = Some r ->
  match r with
  | Ok out => length out = length objs
  | Raise e => e = TypeError \/ e = IndexError
  end.
Proof.
  revert i objs stamped renamed. induction todo as [|todo IH];
    intros i objs stamped renamed H.
  - by injection H as <-.
  - cbn [walk] in H. destruct (objs !! i) as [[obj|v]|]; try by apply (IH _ _ _ _ H).
    destruct (patch_slot fuel L now new_name i obj objs stamped renamed)
      as [[[[objs1 st1] rn1]|e]|] eqn:Ep; [| |done].
    + pose proof (patch_slot_result _ _ _ _ _ _ _ _ _ _ Ep) as Hlen. cbn in Hlen.
      destruct (st1 && rn1).
      * injection H as <-. done.
      * apply IH in H. destruct r; [congruence | done].
    + injection H as <-. apply (patch_slot_result _ _ _ _ _ _ _ _ _ _ Ep).
Qed.

(** X20: whatever the template and the row, the patcher hands back a graph
    with as many slots as the template had, or raises a [TypeError] or an
    [IndexError], never anything else, or it does not come back from the
    resolver. *)
Theorem finalise_seed_brush_result (fpow : Q -> Q -> Q) (fuel : nat)
  (objs : list slot) (new_name : string) (now : Q) (variant : variant_row)
  (r : res (list slot)) :
  finalise_seed_brush fpow fuel objs new_name now variant = Some r ->
  (forall out, r = Ok out -> length out = length objs)
  /\ (forall e, r = Raise e -> e = TypeError \/ e = IndexError).
Proof.
  unfold finalise_seed_brush. intros H.
  destruct (read_locals fpow variant) as [L|e] eqn:EL.
  - apply walk_result in H. split; [by intros out -> | by intros e ->].
  - injection H as <-. split; [done|]. intros e' [= <-]. left.
    revert EL. unfold read_locals.
    destruct (spacing_in_range variant) as (q & -> & _). res_simpl.
    destruct (rf_reads variant) as (mc & ma & fl' & Hc & Ha & Hf).
    rewrite (map_csp_rendering_flags_shape variant mc ma fl' Hc Ha Hf).
    destruct (wm_reads variant) as (c & a & f & Hc' & Ha' & Hf').
    unfold map_csp_to_wet_mix. rewrite Hc', Ha', Hf'. res_simpl.
    destruct (num (get variant "BrushFlow" (VInt 1000))) as [fl|e1] eqn:Efl.
    2:{ unfold min_, lt_. cbn [num]. rewrite Efl. res_simpl.
        intros [= <-]. by eapply num_raise. }
    destruct (read_locals_flow_step variant fl Efl) as [flow_val ->]. res_simpl.
    unfold div_. cbn [num].
    destruct (num (get variant "BrushRotationRandomScale" (VInt 0))) as [sc|e2] eqn:Esc.
    2:{ res_simpl. intros [= <-]. by eapply num_raise. }
    res_simpl. change (Qeq_bool (inject_Z 100) 0) with false. res_simpl.
    destruct (num (get_ variant "BrushRevision")) as [rv|e3] eqn:Er.
    2:{ res_simpl. intros [= <-]. by eapply num_raise. }
    res_simpl. done.
Qed.

Lemma finalise_seed_brush_result_witness :
  (forall out, Ok out_two_spacings = Ok out -> length out = length g_two_spacings)
  /\ (forall e, Ok out_two_spacings = Raise e -> e = TypeError \/ e = IndexError).
Proof.
  apply (finalise_seed_brush_result (fun x _ => approx_pow34 x) 4 g_two_spacings
           "Stamp 1" 17 v_complete (Ok out_two_spacings)).
  vm_cast_no_check (@eq_refl _ (Some (Ok out_two_spacings))).
Defined.

Lemma patch_slot_plain (fuel : nat) (L : locals) (now : Q) (new_name : string)
  (i : nat) (obj : record) (objs : list slot) :
  no_claim_once obj ->
  patch_slot fuel L now new_name i obj objs false false
  = Some (obj' ← patch_fields L obj; Ok (<[i := SDict obj']> objs, false, false)).
Proof.
  intros (H1 & H2 & H3 & H4). unfold patch_slot, stamp_step.
  rewrite H1, H2. cbn [negb andb orb]. unfold rename_step.
  rewrite H3, H4. cbn [negb andb orb]. res_simpl.
  by destruct (patch_fields L obj).
Qed.

Lemma walk_plain (fuel : nat) (L : locals) (now : Q) (new_name : string)
  (todo i : nat) (objs : list slot) :
  (forall j obj, (i <= j)%nat -> objs !! j = Some (SDict obj) -> no_claim_once obj) ->
  (todo + i = length objs)%nat ->
  exists r,
    walk fuel L now new_name todo i objs false false = Some r
    /\ (forall out, r = Ok out ->
          length out = length objs
          /\ (forall j, (j < i)%nat -> out !! j = objs !! j)
          /\ (forall j obj, (i <= j)%nat -> objs !! j = Some (SDict obj) ->
                exists obj', patch_fields L obj = Ok obj' /\ out !! j = Some (SDict obj'))
          /\ (forall j v, (i <= j)%nat -> objs !! j = Some (SVal v) ->
                out !! j = Some (SVal v)))
    /\ (forall e, r = Raise e ->
          exists j obj, (i <= j)%nat /\ objs !! j = Some (SDict obj)
                        /\ patch_fields L obj = Raise e).
Proof.
  revert i objs. induction todo as [|todo IH]; intros i objs Hno Hlen.
  - exists (Ok objs). split; [done|]. split; [|done]. intros out [= <-].
    split; [done|]. split; [done|]. split.
    + intros j obj Hj Hobj. apply lookup_lt_Some in Hobj. lia.
    + intros j v Hj Hv. apply lookup_lt_Some in Hv. lia.
  - cbn [walk]. destruct (objs !! i) as [[obj|v]|] eqn:Ei.
    + rewrite (patch_slot_plain _ _ _ _ _ _ _ (Hno i obj ltac:(lia) Ei)).
      destruct (patch_fields L obj) as [obj'|e] eqn:Ep; res_simpl.
      * cbn [andb].
        destruct (IH (S i) (<[i := SDict obj']> objs)) as (r & Hr & Hok & Herr).
        { intros j o Hj Ho. rewrite list_lookup_insert_ne in Ho by lia.
          apply (Hno j); [lia | done]. }
        { rewrite length_insert. lia. }
        exists r. split; [done|]. split.
        -- intros out ->. destruct (Hok out eq_refl) as (Hl & Hlt & Hd & Hv).
           rewrite length_insert in Hl. split; [done|]. split; [|split].
           ++ intros j Hj. rewrite Hlt by lia. apply list_lookup_insert_ne. lia.
           ++ intros j o Hj Ho. destruct (decide (j = i)) as [->|Hne].
              ** rewrite Ei in Ho. injection Ho as <-. exists obj'. split; [done|].
                 rewrite Hlt by lia. apply list_lookup_insert_eq.
                 by eapply lookup_lt_Some.
              ** apply Hd; [lia|]. by rewrite list_lookup_insert_ne by lia.
           ++ intros j v Hj Hv'. destruct (decide (j = i)) as [->|Hne]; [congruence|].
              apply Hv; [lia|]. by rewrite list_lookup_insert_ne by lia.
        -- intros e ->. destruct (Herr e eq_refl) as (j & o & Hj & Ho & Hp).
           rewrite list_lookup_insert_ne in Ho by lia.
           exists j, o. split; [lia | done].
      * exists (Raise e). split; [done|]. split; [done|]. intros e' [= <-].
        by exists i, obj.
    + destruct (IH (S i) objs) as (r & Hr & Hok & Herr).
      { intros j o Hj Ho. apply (Hno j); [lia | done]. }
      { lia. }
      exists r. split; [done|]. split.
      2:{ intros e ->. destruct (Herr e eq_refl) as (j & o & Hj & Ho & Hp).
          exists j, o. split; [lia | done]. }
      intros out ->. destruct (Hok out eq_refl) as (Hl & Hlt & Hd & Hv').
      split; [done|]. split; [|split].
      * intros j Hj. apply Hlt. lia.
      * intros j o Hj Ho. destruct (decide (j = i)) as [->|Hne]; [congruence|].
        apply Hd; [lia | done].
      * intros j v' Hj Hv''. destruct (decide (j = i)) as [->|Hne].
        -- rewrite Hlt by lia. done.
        -- apply Hv'; [lia | done].
    + apply lookup_ge_None in Ei. lia.
Qed.

(** X21: on a template in which no record has a name or a creation date the
    loop never leaves early and never asks the resolver: it comes back for
    any fuel, every record slot holds the record with the assignments
    applied, every other slot is as it was, and an exception can only be
    one that the assignments raise on one of the records. *)
Theorem walk_without_claims (fuel : nat) (L : locals) (now : Q) (new_name : string)
  (objs : list slot) :
  (forall j obj, objs !! j = Some (SDict obj) -> no_claim_once obj) ->
  exists r,
    walk fuel L now new_name (length objs) 0 objs false false = Some r
    /\ (forall out, r = Ok out ->
          length out = length objs
          /\ (forall j obj, objs !! j = Some (SDict obj) ->
                exists obj', patch_fields L obj = Ok obj' /\ out !! j = Some (SDict obj'))
          /\ (forall j v, objs !! j = Some (SVal v) -> out !! j = Some (SVal v)))
    /\ (forall e, r = Raise e ->
          exists j obj, objs !! j = Some (SDict obj) /\ patch_fields L obj = Raise e).
Proof.
  intros Hno.
  destruct (walk_plain fuel L now new_name (length objs) 0 objs) as (r & Hr & Hok & Herr).
  { intros j obj _. apply Hno. }
  { lia. }
  exists r. split; [done|]. split.
  - intros out ->. destruct (Hok out eq_refl) as (Hl & _ & Hd & Hv).
    split; [done|]. split.
    + intros j obj. apply Hd. lia.
    + intros j v. apply Hv. lia.
  - intros e ->. destruct (Herr e eq_refl) as (j & obj & _ & Ho & Hp). by exists j, obj.
Qed.

Lemma walk_without_claims_witness :
  exists r,
    walk 0 L_plain 17 "Stamp 1" (length g_plain) 0 g_plain false false = Some r
    /\ (forall out, r = Ok out ->
          length out = length g_plain
          /\ (forall j obj, g_plain !! j = Some (SDict obj) ->
                exists obj', patch_fields L_plain obj = Ok obj'
                             /\ out !! j = Some (SDict obj'))
          /\ (forall j v, g_plain !! j = Some (SVal v) -> out !! j = Some (SVal v)))
    /\ (forall e, r = Raise e ->
          exists j obj, g_plain !! j = Some (SDict obj) /\ patch_fields L_plain obj = Raise e).
Proof.
  apply (walk_without_claims 0 L_plain 17 "Stamp 1" g_plain).
  intros [|[|[|j]]] obj; cbn; intros [= <-]; vm_compute; done.
Defined.
